(** * Observable collections of microui: a shallow embedding

    The development follows the TypeScript sources:
    - [BaseObservable]     : src/observable/BaseObservable.ts
    - [Utils]              : sortedIndex and findAndUpdateInArray
    - [JoinedMap]          : JoinedMap, JoinedIterator (observable/map)
    - [ApplyMap]           : ApplyMap (observable/map)
    - [MappedList], [MappedMap], [FilteredList] : the list and map operators

    Conventions.  A JavaScript [number] used as an index or a counter is a [Z]
    where the code relies on [-1] or on 32-bit arithmetic and a [nat]
    otherwise.  [undefined] returned by a lookup is [None].  An object that is
    compared by identity (a handler, a source map) is named by a [nat].
    Emitting an event is recorded in the list of events the call returns. *)

From Stdlib Require Import ZArith Lia.
From stdpp Require Import base gmap sets list strings sorting.

(** ** Events *)

(** Modelled from the spec: [emitReset], [emitAdd], [emitRemove],
    [emitUpdate] and [emitMove] of BaseObservableList, which is not among the
    sources.  Each hands one event to every subscribed handler (onReset,
    onAdd, onRemove, onUpdate, onMove); an emitted event is one of these
    values. *)
Inductive ListEvent (V P : Type) : Type :=
  | LReset
  | LAdd (idx : nat) (value : V)
  | LRemove (idx : nat) (value : V)
  | LUpdate (idx : nat) (value : V) (params : P)
  | LMove (fromIdx toIdx : nat) (value : V).
Arguments LReset {V P}.
Arguments LAdd {V P} idx value.
Arguments LRemove {V P} idx value.
Arguments LUpdate {V P} idx value params.
Arguments LMove {V P} fromIdx toIdx value.

(** Modelled from the spec: the same for BaseObservableMap and its
    handlers (IMapObserver): onReset, onAdd, onRemove, onUpdate. *)
Inductive MapEvent (K V P : Type) : Type :=
  | MReset
  | MAdd (key : K) (value : V)
  | MRemove (key : K) (value : V)
  | MUpdate (key : K) (value : V) (params : P).
Arguments MReset {K V P}.
Arguments MAdd {K V P} key value.
Arguments MRemove {K V P} key value.
Arguments MUpdate {K V P} key value params.

(** What an iterator's [next()] returns: [{done: true}] or a value. *)
Inductive IteratorResult (A : Type) : Type :=
  | Done
  | Yield (value : A).
Arguments Done {A}.
Arguments Yield {A} value.

(** A small subset of JavaScript values, enough to tell truthy from falsy.
    [undefined] is not among them: it is the [None] of a lookup. *)
Inductive JsValue : Type :=
  | JNull
  | JBool (b : bool)
  | JNum (n : Z)
  | JStr (s : string)
  | JObj (ref : nat).

(** ToBoolean. *)
Definition js_truthy (v : JsValue) : bool :=
  match v with
  | JNull => false
  | JBool b => b
  | JNum n => negb (n =? 0)%Z
  | JStr s => negb (String.eqb s EmptyString)
  | JObj _ => true
  end.

(** ** BaseObservable *)

Module BaseObservable.

(** A handler is an object; the Set compares handlers by identity. *)
Definition handler := nat.

(** The class [Collection] of the test suite: a BaseObservable whose two
    hooks count their calls. *)
Record Collection : Type := mkCollection {
  _handlers : gset handler;
  firstSubscribeCalls : nat;
  firstUnsubscribeCalls : nat
}.

Definition constructor : Collection := mkCollection ∅ 0 0.

Definition onSubscribeFirst (c : Collection) : Collection :=
  mkCollection (_handlers c) (firstSubscribeCalls c + 1) (firstUnsubscribeCalls c).

Definition onUnsubscribeLast (c : Collection) : Collection :=
  mkCollection (_handlers c) (firstSubscribeCalls c) (firstUnsubscribeCalls c + 1).

Definition with_handlers (hs : gset handler) (c : Collection) : Collection :=
  mkCollection hs (firstSubscribeCalls c) (firstUnsubscribeCalls c).

(** [unsubscribe(handler: T | null)]; the final [handler = null] assigns
    the parameter only and has no effect outside the call. *)
Definition unsubscribe (h : option handler) (c : Collection) : Collection :=
  match h with
  | Some h =>
      let c := with_handlers (_handlers c ∖ {[h]}) c in
      if decide (size (_handlers c) = 0) then onUnsubscribeLast c else c
  | None => c
  end.

(** [subscribe(handler)] returns the new state and the closure
    [() => this.unsubscribe(handler)]. *)
Definition subscribe (h : handler) (c : Collection)
  : Collection * (Collection → Collection) :=
  let c := with_handlers ({[h]} ∪ _handlers c) c in
  let c := if decide (size (_handlers c) = 1) then onSubscribeFirst c else c in
  (c, unsubscribe (Some h)).

Definition unsubscribeAll (c : Collection) : Collection :=
  if decide (size (_handlers c) ≠ 0)
  then onUnsubscribeLast (with_handlers ∅ c)
  else c.

Definition hasSubscriptions (c : Collection) : bool :=
  bool_decide (size (_handlers c) ≠ 0).

End BaseObservable.

(** ** sortedIndex and findAndUpdateInArray *)

Module Utils.

(** [n >>> 1] on a non-negative number: ToUint32, then a shift. *)
Definition ushr1 (n : Z) : Z := Z.shiftr (n mod 2 ^ 32) 1.

Section sortedIndex.
Context {T : Type}.
Variable comparator : T → T → Z.

(** The [while (low < high)] loop.  [None] when the fuel runs out, or
    when [array[mid]] is read outside the array (the comparator would
    receive [undefined], which is no [T]). *)
Fixpoint sortedIndex_loop (fuel : nat) (array : list T) (value : T)
    (low high : Z) : option Z :=
  match fuel with
  | O => None
  | S fuel =>
      if (low <? high)%Z then
        let mid := ushr1 (low + high) in
        match array !! Z.to_nat mid with
        | None => None
        | Some x =>
            let cmpResult := comparator value x in
            if (cmpResult >? 0)%Z then
              sortedIndex_loop fuel array value (mid + 1)%Z high
            else if (cmpResult <? 0)%Z then
              sortedIndex_loop fuel array value low mid
            else
              sortedIndex_loop fuel array value mid mid
        end
      else Some high
  end.

Definition sortedIndex (array : list T) (value : T) : option Z :=
  sortedIndex_loop (S (length array)) array value 0%Z (Z.of_nat (length array)).

(** The vocabulary of the contract.  [x] may stand before [y] when the
    comparator does not put it after; an array is ordered when every
    element may stand before all later ones.  A comparator is
    consistent when swapping its arguments swaps the sign and "may stand
    before" is transitive. *)
Definition may_precede (x y : T) : Prop := (comparator x y ≤ 0)%Z.

Definition ordered (array : list T) : Prop := StronglySorted may_precede array.

Definition consistent : Prop :=
  (∀ a b, (0 < comparator a b)%Z ↔ (comparator b a < 0)%Z) ∧
  (∀ a b c, may_precede a b → may_precede b c → may_precede a c).

(** What the loop knows while it has not met an equal element: the
    value sorts after everything before [low] and before everything from
    [high] on. *)
Definition strict (array : list T) (value : T) (low high : Z) : Prop :=
  (∀ i x, (Z.of_nat i < low)%Z → array !! i = Some x → (0 < comparator value x)%Z) ∧
  (∀ i x, (high ≤ Z.of_nat i)%Z → array !! i = Some x → (comparator value x < 0)%Z).

(** The element at [r] compares equal to the value. *)
Definition hit (array : list T) (value : T) (r : Z) : Prop :=
  ∃ x, array !! Z.to_nat r = Some x ∧ comparator value x = 0%Z.

(** [array.splice(r, 0, value)]. *)
Definition insertAt (array : list T) (r : nat) (value : T) : list T :=
  take r array ++ value :: drop r array.
End sortedIndex.

Section findAndUpdateInArray.
Context {T P : Type}.

(** [Array.prototype.findIndex]: the first index whose element passes,
    or [-1]. *)
Fixpoint findIndex_from (predicate : T → bool) (array : list T) (i : Z) : Z :=
  match array with
  | [] => (-1)%Z
  | x :: rest => if predicate x then i else findIndex_from predicate rest (i + 1)%Z
  end.

Definition findIndex (predicate : T → bool) (array : list T) : Z :=
  findIndex_from predicate array 0%Z.

(** What one call did: the boolean it returned, the values the updater
    was called with (in call order), and the events handed to
    [observable.emitUpdate]. *)
Record Outcome : Type := mkOutcome {
  found : bool;
  updaterCalls : list T;
  emitted : list (ListEvent T P)
}.

(** The updater returns a params payload or [false]; [None] is [false].
    The branch where [array[index]] is missing is never taken, since
    [findIndex] returns [-1] or an index of the array. *)
Definition findAndUpdateInArray (predicate : T → bool) (array : list T)
    (updater : T → option P) : Outcome :=
  let index := findIndex predicate array in
  if decide (index ≠ (-1)%Z) then
    match array !! Z.to_nat index with
    | Some value =>
        match updater value with
        | Some params =>
            mkOutcome true [value] [LUpdate (Z.to_nat index) value params]
        | None => mkOutcome true [value] []
        end
    | None => mkOutcome true [] []
    end
  else mkOutcome false [] [].
End findAndUpdateInArray.

End Utils.


(** ** JoinedMap and JoinedIterator *)

Module JoinedMap.

(** A source map is an object: [_sources.indexOf(source)] compares
    identities, so a source is named by a [nat]. *)
Definition source := nat.

Section JoinedMap.
Context {K V P : Type} `{Countable K}.

(** Modelled from the spec: what JoinedMap uses of a source, a
    BaseObservableMap, which is not among the sources: its entries in
    iteration order, with one entry per key, and [get], which is
    [undefined] ([None]) for a key the source does not hold. *)
Fixpoint map_get (m : list (K * V)) (key : K) : option V :=
  match m with
  | [] => None
  | (k, v) :: rest => if decide (k = key) then Some v else map_get rest key
  end.

(** ToBoolean on the values of the map. *)
Variable truthy : V → bool.

(** The current contents of every source object. *)
Variable store : source → list (K * V).

(** Modelled from the spec: the [size] every source object reports, the
    getter of its own class.  An ObservableMap reports the number of its
    entries; a source that is itself a JoinedMap reports the sum over its
    own sources, which counts an occluded entry too. *)
Variable size_of : source → nat.

Record t : Type := mk {
  _sources : list source;
  _subscriptions : option (list source)
}.

Definition constructor (sources : list source) : t := mk sources None.

(** [Array.prototype.indexOf]: first position, or [-1]. *)
Fixpoint indexOf_from (l : list source) (s : source) (i : Z) : Z :=
  match l with
  | [] => (-1)%Z
  | x :: rest => if decide (x = s) then i else indexOf_from rest s (i + 1)%Z
  end.

Definition indexOf (l : list source) (s : source) : Z := indexOf_from l s 0%Z.

(** The body of the loop of [_isKeyAtSourceOccluded], over the sources
    [0 .. index-1]. *)
Fixpoint occluded_loop (earlier : list source) (key : K) : bool :=
  match earlier with
  | [] => false
  | s :: rest =>
      match map_get (store s) key with
      | Some _ => true
      | None => occluded_loop rest key
      end
  end.

Definition _isKeyAtSourceOccluded (jm : t) (src : source) (key : K) : bool :=
  let index := indexOf (_sources jm) src in
  occluded_loop (take (Z.to_nat index) (_sources jm)) key.

(** The body of the loop of [_getValueFromOccludedSources], over the
    sources [index+1 .. length-1]. *)
Fixpoint occludedValue_loop (later : list source) (key : K) : option V :=
  match later with
  | [] => None
  | s :: rest =>
      match map_get (store s) key with
      | Some occludedValue => Some occludedValue
      | None => occludedValue_loop rest key
      end
  end.

Definition _getValueFromOccludedSources (jm : t) (src : source) (key : K)
  : option V :=
  let index := indexOf (_sources jm) src in
  occludedValue_loop (drop (Z.to_nat (index + 1)) (_sources jm)) key.

(** The handlers assign no field of the JoinedMap; each returns the
    events it emits, in order. *)
Definition onAdd (jm : t) (src : source) (key : K) (value : V)
  : list (MapEvent K V P) :=
  if negb (_isKeyAtSourceOccluded jm src key) then
    match _getValueFromOccludedSources jm src key with
    | Some occludingValue => [MRemove key occludingValue; MAdd key value]
    | None => [MAdd key value]
    end
  else [].

Definition onRemove (jm : t) (src : source) (key : K) (value : V)
  : list (MapEvent K V P) :=
  if negb (_isKeyAtSourceOccluded jm src key) then
    match _getValueFromOccludedSources jm src key with
    | Some occludedValue => [MRemove key value; MAdd key occludedValue]
    | None => [MRemove key value]
    end
  else [].

Definition onUpdate (jm : t) (src : source) (key : K) (value : V) (params : P)
  : list (MapEvent K V P) :=
  match _subscriptions jm with
  | None => []
  | Some _ =>
      if negb (_isKeyAtSourceOccluded jm src key) then [MUpdate key value params]
      else []
  end.

Definition onReset (jm : t) (src : source) : list (MapEvent K V P) := [MReset].

(** One SourceSubscriptionHandler per source, in source order. *)
Definition onSubscribeFirst (jm : t) : t :=
  mk (_sources jm) (Some (_sources jm)).

(** [size]: the sum of the sizes the sources report. *)
Definition size (jm : t) : nat :=
  foldl (λ sum s, sum + size_of s) 0 (_sources jm).

(** The number of entries the sources iterate, all together. *)
Definition entry_count (jm : t) : nat :=
  foldl (λ sum s, sum + length (store s)) 0 (_sources jm).

(** [get]: the loop tests [if (value)]. *)
Fixpoint get_loop (sources : list source) (key : K) : option V :=
  match sources with
  | [] => None
  | s :: rest =>
      match map_get (store s) key with
      | Some value => if truthy value then Some value else get_loop rest key
      | None => get_loop rest key
      end
  end.

Definition get (jm : t) (key : K) : option V := get_loop (_sources jm) key.

(** *** JoinedIterator *)

Record JoinedIterator : Type := mkIterator {
  it_sources : list source;
  _sourceIndex : Z;
  _currentIterator : option (list (K * V));
  _encounteredKeys : gset K
}.

Definition newIterator (sources : list source) : JoinedIterator :=
  mkIterator sources (-1)%Z None ∅.

(** From [const sourceResult = this._currentIterator.next()] to the end
    of the loop body; [cur] is what the current iterator has left.
    [None] as a result means: go around the loop again. *)
Definition next_source_step (it : JoinedIterator) (cur : list (K * V))
  : option (IteratorResult (K * V)) * JoinedIterator :=
  match cur with
  | [] =>
      (None, mkIterator (it_sources it) (_sourceIndex it) None (_encounteredKeys it))
  | (key, value) :: rest =>
      if decide (key ∈ _encounteredKeys it) then
        (None, mkIterator (it_sources it) (_sourceIndex it) (Some rest)
                 (_encounteredKeys it))
      else
        (Some (Yield (key, value)),
         mkIterator (it_sources it) (_sourceIndex it) (Some rest)
           ({[key]} ∪ _encounteredKeys it))
  end.

(** One turn of [while (!result)]. *)
Definition next_body (it : JoinedIterator)
  : option (IteratorResult (K * V)) * JoinedIterator :=
  match _currentIterator it with
  | Some cur => next_source_step it cur
  | None =>
      let idx := (_sourceIndex it + 1)%Z in
      let it := mkIterator (it_sources it) idx None (_encounteredKeys it) in
      if (Z.of_nat (length (it_sources it)) <=? idx)%Z then (Some Done, it)
      else
        match it_sources it !! Z.to_nat idx with
        | Some s => next_source_step it (store s)
        | None => (Some Done, it)
        end
  end.

Fixpoint next_loop (fuel : nat) (it : JoinedIterator)
  : option (IteratorResult (K * V) * JoinedIterator) :=
  match fuel with
  | O => None
  | S fuel =>
      match next_body it with
      | (Some result, it) => Some (result, it)
      | (None, it) => next_loop fuel it
      end
  end.

(** The number of turns [next] can take before it returns: one per
    entry left and two per source left, and one more. *)
Definition iterator_turns (current : option (list (K * V))) : nat :=
  match current with Some cur => S (length cur) | None => 0 end.

Definition source_turns (sources : list source) : nat :=
  foldr (λ s n, S (S (length (store s))) + n) 0 sources.

Definition turns_left (it : JoinedIterator) : nat :=
  iterator_turns (_currentIterator it)
  + source_turns (drop (Z.to_nat (_sourceIndex it + 1)) (it_sources it))
  + 1.

Definition next (it : JoinedIterator)
  : option (IteratorResult (K * V) * JoinedIterator) :=
  next_loop (turns_left it) it.

(** Draining the iterator, as [for (const [k, v] of joinedMap)] or
    [Array.from] do. *)
Fixpoint drain (fuel : nat) (it : JoinedIterator) : option (list (K * V)) :=
  match fuel with
  | O => None
  | S fuel =>
      match next it with
      | None => None
      | Some (Done, _) => Some []
      | Some (Yield kv, it) => cons kv <$> drain fuel it
      end
  end.

(** [[...joinedMap]]: [Symbol.iterator] makes a new JoinedIterator. *)
Definition iterate (jm : t) : option (list (K * V)) :=
  drain (S (entry_count jm)) (newIterator (_sources jm)).

(** *** The vocabulary of the iteration contract *)

(** The entries of all sources, in source order and then in the order
    each source iterates. *)
Definition all_entries (sources : list source) : list (K * V) :=
  concat (store <$> sources).

(** Of a list of entries, those that come first for their key, keys in
    [seen] apart. *)
Fixpoint first_wins (seen : gset K) (l : list (K * V)) : list (K * V) :=
  match l with
  | [] => []
  | (key, value) :: rest =>
      if decide (key ∈ seen) then first_wins seen rest
      else (key, value) :: first_wins ({[key]} ∪ seen) rest
  end.

(** What an iterator has not looked at yet. *)
Definition remaining (it : JoinedIterator) : list (K * V) :=
  default [] (_currentIterator it)
  ++ all_entries (drop (Z.to_nat (_sourceIndex it + 1)) (it_sources it)).

(** What a turn keeps: the sources, an index from [-1] on, and the
    entries still to come; a turn that yields nothing uses up fuel. *)
Definition turn_ok (it : JoinedIterator) (res : option (IteratorResult (K * V)))
    (it' : JoinedIterator) : Prop :=
  it_sources it' = it_sources it ∧ (-1 ≤ _sourceIndex it')%Z ∧
  match res with
  | None =>
      turns_left it' < turns_left it ∧
      first_wins (_encounteredKeys it') (remaining it')
      = first_wins (_encounteredKeys it) (remaining it)
  | Some (Yield kv) =>
      first_wins (_encounteredKeys it) (remaining it)
      = kv :: first_wins (_encounteredKeys it') (remaining it')
  | Some Done =>
      first_wins (_encounteredKeys it) (remaining it) = []
  end.


End JoinedMap.

(** The sources of the key-collision test: [{a: 1}] and [{a: 2, b: 3}]. *)
Definition collision_store (s : source) : list (string * JsValue) :=
  match s with
  | 0 => [("a", JNum 1)]
  | 1 => [("a", JNum 2); ("b", JNum 3)]
  | _ => []
  end.

(** Two sources [{a: 0}] and [{a: 5}]: the first holds a falsy value. *)
Definition falsy_store (s : source) : list (string * JsValue) :=
  match s with
  | 0 => [("a", JNum 0)]
  | 1 => [("a", JNum 5)]
  | _ => []
  end.

(** [new JoinedMap([new JoinedMap([{a: 1}, {a: 2}]), {b: 3}])]: the first
    source of the outer map is the inner JoinedMap, which iterates what
    [iterate] gives and reports what [size] gives. *)
Definition inner_store (s : source) : list (string * JsValue) :=
  match s with
  | 0 => [("a", JNum 1)]
  | 1 => [("a", JNum 2)]
  | _ => []
  end.

Definition inner : t := constructor [0; 1].

Definition nested_store (s : source) : list (string * JsValue) :=
  match s with
  | 0 => default [] (iterate inner_store inner)
  | 1 => [("b", JNum 3)]
  | _ => []
  end.

Definition nested_size (s : source) : nat :=
  match s with
  | 0 => size (λ s, length (inner_store s)) inner
  | 1 => 1
  | _ => 0
  end.

End JoinedMap.

(** ** ApplyMap *)

Module ApplyMap.

Section ApplyMap.
Context {K V P : Type}.

(** Modelled from the spec: the source, a BaseObservableMap, which is not
    among the sources: its entries in iteration order and the
    BaseObservable it extends, whose [subscribe] is the one above.  The
    source's own [onSubscribeFirst], which [subscribe] runs when the handler
    set has size 1 after the add, may emit events while it runs (the
    re-entrancy the spec describes); [emitsOnSubscribeFirst] lists them in
    order, each with the entries the source iterates at that moment.  A
    leaf map emits nothing there. *)
Record Source : Type := mkSource {
  entries : list (K * V);
  observable : BaseObservable.Collection;
  emitsOnSubscribeFirst : list (list (K * V) * MapEvent K V P)
}.

(** What a call does to the outside, in order: it subscribes to the
    source, calls the apply callback, emits an event. *)
Inductive Effect : Type :=
  | SourceSubscribed (h : BaseObservable.handler)
  | SourceUnsubscribed (h : BaseObservable.handler)
  | ApplyCalled (key : K) (value : V) (params : option P)
  | Emitted (e : MapEvent K V P).

(** [_apply] is null or a callback; a call of the callback is recorded as
    [ApplyCalled], with [params = None] when the argument is not passed.
    [_subscription] is null or the closure [subscribe] returned, which
    holds the handler to unsubscribe.  [this_] is the identity of the
    ApplyMap, the handler it passes to the source. *)
Record t : Type := mk {
  this_ : BaseObservable.handler;
  _source : Source;
  _apply : bool;
  _subscription : option BaseObservable.handler
}.

Definition constructor (this : BaseObservable.handler) (source : Source)
    (apply : bool) : t :=
  mk this source apply None.

Definition hasApply (am : t) : bool := _apply am.

(** [for (const [key, value] of this._source) apply(key, value)]. *)
Fixpoint applyOnce_loop (rest : list (K * V)) : list Effect :=
  match rest with
  | [] => []
  | (key, value) :: rest => ApplyCalled key value None :: applyOnce_loop rest
  end.

Definition applyOnce (am : t) : list Effect :=
  applyOnce_loop (entries (_source am)).

Definition setApply (am : t) (apply : bool) : t * list Effect :=
  let am := mk (this_ am) (_source am) apply (_subscription am) in
  (am, if apply then applyOnce am else []).

Definition onAdd (am : t) (key : K) (value : V) : list Effect :=
  (if _apply am then [ApplyCalled key value None] else [])
  ++ [Emitted (MAdd key value)].

Definition onRemove (am : t) (key : K) (value : V) : list Effect :=
  [Emitted (MRemove key value)].

Definition onUpdate (am : t) (key : K) (value : V) (params : P) : list Effect :=
  (if _apply am then [ApplyCalled key value (Some params)] else [])
  ++ [Emitted (MUpdate key value params)].

Definition onReset (am : t) : list Effect :=
  (if _apply am then applyOnce am else []) ++ [Emitted MReset].

(** The handler of the ApplyMap that an event of the source reaches. *)
Definition handle (am : t) (e : MapEvent K V P) : list Effect :=
  match e with
  | MReset => onReset am
  | MAdd key value => onAdd am key value
  | MRemove key value => onRemove am key value
  | MUpdate key value params => onUpdate am key value params
  end.

(** The events that reach the handler [this] while [source.subscribe(this)]
    runs: those of the source's [onSubscribeFirst], when [subscribe] runs
    it. *)
Definition delivered_on_subscribe (this : BaseObservable.handler) (source : Source)
  : list (list (K * V) * MapEvent K V P) :=
  if decide (size ({[this]} ∪ BaseObservable._handlers (observable source)) = 1)
  then emitsOnSubscribeFirst source
  else [].

Definition with_entries (now : list (K * V)) (am : t) : t :=
  mk (this_ am)
     (mkSource now (observable (_source am)) (emitsOnSubscribeFirst (_source am)))
     (_apply am) (_subscription am).

(** What the handlers of the ApplyMap do with these events, one after the
    other, before [subscribe] returns. *)
Fixpoint reentrant_effects (am : t) (steps : list (list (K * V) * MapEvent K V P))
  : list Effect :=
  match steps with
  | [] => []
  | (now, e) :: rest => handle (with_entries now am) e ++ reentrant_effects am rest
  end.

(** [this._subscription = this._source.subscribe(this)], during which the
    source may call the handlers; then the callback is applied to every
    entry; [super.onSubscribeFirst()] is the empty hook of BaseObservable. *)
Definition onSubscribeFirst (am : t) : t * list Effect :=
  let reentrant :=
    reentrant_effects am (delivered_on_subscribe (this_ am) (_source am)) in
  let '(obs, _) := BaseObservable.subscribe (this_ am) (observable (_source am)) in
  let am := mk (this_ am)
              (mkSource (entries (_source am)) obs (emitsOnSubscribeFirst (_source am)))
              (_apply am) (Some (this_ am)) in
  (am, SourceSubscribed (this_ am)
       :: reentrant ++ (if _apply am then applyOnce am else [])).

Definition get_size (am : t) : nat := length (entries (_source am)).

(** [super.onUnsubscribeLast()] is the empty hook of BaseObservable; then
    [this._subscription!()] calls the closure, which unsubscribes the
    ApplyMap from the source.  When [_subscription] is [null] the call
    throws a TypeError: [None]. *)
Definition onUnsubscribeLast (am : t) : option (t * list Effect) :=
  match _subscription am with
  | Some h =>
      Some (mk (this_ am)
              (mkSource (entries (_source am))
                 (BaseObservable.unsubscribe (Some h) (observable (_source am)))
                 (emitsOnSubscribeFirst (_source am)))
              (_apply am) None,
            [SourceUnsubscribed h])
  | None => None
  end.

(** The events among the effects of a call, in order. *)
Fixpoint emitted_events (effects : list Effect) : list (MapEvent K V P) :=
  match effects with
  | [] => []
  | Emitted e :: rest => e :: emitted_events rest
  | _ :: rest => emitted_events rest
  end.

(** The calls of the callback among the effects of a call, in order. *)
Fixpoint callback_calls (effects : list Effect) : list (K * V * option P) :=
  match effects with
  | [] => []
  | ApplyCalled key value params :: rest => (key, value, params) :: callback_calls rest
  | _ :: rest => callback_calls rest
  end.

End ApplyMap.

Arguments Source : clear implicits.
Arguments t : clear implicits.
Arguments Effect : clear implicits.

(** A source [{a: 1}] without subscribers whose [onSubscribeFirst] emits
    one update of ["a"] while it runs. *)
Definition noisy_source : Source string nat unit :=
  mkSource [("a", 1)] BaseObservable.constructor [([("a", 1)], MUpdate "a" 1 tt)].


End ApplyMap.

(** ** MappedList *)

Module MappedList.

Section MappedList.
Context {F T P : Type}.

(** Modelled from the spec: the fields MappedList inherits from
    BaseMappedList, which is not among the sources: the mapper and the
    cache of mapped values, [null] until the first subscription. *)
Record t : Type := mk {
  _sourceList : list F;
  _mappedValues : option (list T);
  _sourceUnsubscribe : bool
}.

Variable _mapper : F → T.

(** [runUpdate] of BaseMappedList.js, which is not among the sources: a
    parameter. *)
Variable runUpdate : t → nat → F → P → t * list (ListEvent T P).

Definition onSubscribeFirst (ml : t) : t :=
  mk (_sourceList ml) (Some (_mapper <$> _sourceList ml)) true.

Definition onUpdate (ml : t) (index : nat) (value : F) (params : P)
  : t * list (ListEvent T P) :=
  match _mappedValues ml with
  | None => (ml, [])
  | Some _ => runUpdate ml index value params
  end.

End MappedList.

Arguments t : clear implicits.

End MappedList.

(** ** MappedMap *)

Module MappedMap.

Section MappedMap.
Context {K FV TV P : Type} `{Countable K}.

(** [_mappedValues] is a Map from its declaration on, never [null].  The
    updater changes the mapped value in place; here it returns the value
    as changed, which the cache then holds. *)
Record t : Type := mk {
  _source : list (K * FV);
  _mappedValues : gmap K TV;
  _subscription : bool
}.

Variable _mapper : FV → TV.
Variable _updater : option (TV → P → FV → TV).

Definition onAdd (mm : t) (key : K) (value : FV) : t * list (MapEvent K TV P) :=
  let mappedValue := _mapper value in
  (mk (_source mm) (<[key := mappedValue]> (_mappedValues mm)) (_subscription mm),
   [MAdd key mappedValue]).

Definition onRemove (mm : t) (key : K) : t * list (MapEvent K TV P) :=
  match _mappedValues mm !! key with
  | Some mappedValue =>
      (mk (_source mm) (delete key (_mappedValues mm)) (_subscription mm),
       [MRemove key mappedValue])
  | None => (mm, [])
  end.

(** The test [!this._mappedValues] is false for every Map; what decides
    is whether the key has a mapped value. *)
Definition onUpdate (mm : t) (key : K) (value : FV) (params : P)
  : t * list (MapEvent K TV P) :=
  match _mappedValues mm !! key with
  | Some mappedValue =>
      let mappedValue :=
        match _updater with
        | Some updater => updater mappedValue params value
        | None => mappedValue
        end in
      (mk (_source mm) (<[key := mappedValue]> (_mappedValues mm)) (_subscription mm),
       [MUpdate key mappedValue params])
  | None => (mm, [])
  end.

Definition onReset (mm : t) : t * list (MapEvent K TV P) :=
  (mk (_source mm) ∅ (_subscription mm), [MReset]).

Definition onSubscribeFirst (mm : t) : t :=
  mk (_source mm)
     (foldl (λ m kv, <[kv.1 := _mapper kv.2]> m) (_mappedValues mm) (_source mm))
     true.

(** ToBoolean on mapped values. *)
Variable truthy : TV → bool.

(** The callback handed to the mapper, bound to [key]: it tests
    [if (value)] on the cached mapped value. *)
Definition _emitSpontaneousUpdate (mm : t) (key : K) (params : P)
  : list (MapEvent K TV P) :=
  match _mappedValues mm !! key with
  | Some value => if truthy value then [MUpdate key value params] else []
  | None => []
  end.

(** [super.onUnsubscribeLast()] is the empty hook; [this._subscription!()]
    throws a TypeError when no subscription is held ([None]), before the
    cache is cleared. *)
Definition onUnsubscribeLast (mm : t) : option t :=
  if _subscription mm then Some (mk (_source mm) ∅ false) else None.

Definition get (mm : t) (key : K) : option TV := _mappedValues mm !! key.

Definition get_size (mm : t) : nat := size (_mappedValues mm).

(** Modelled from the spec: the leaf map behind [_source], which is not
    among the sources.  It changes its own entries and then emits one
    event for a key that is valid for that change: an add for a key it did
    not hold, a remove or an update for a key it holds; a reset follows the
    clearing of all entries.  A change that does not apply is no change and
    no event. *)
Inductive SourceChange : Type :=
  | Add (key : K) (value : FV)
  | Remove (key : K)
  | Update (key : K) (value : FV) (params : P)
  | Reset.

Definition with_source (entries : gmap K FV) (mm : t) : t :=
  mk (map_to_list entries) (_mappedValues mm) (_subscription mm).

(** The change is made to the entries of the source, then the handler of
    the MappedMap runs. *)
Definition source_change (c : SourceChange) (st : gmap K FV * t)
  : (gmap K FV * t) * list (MapEvent K TV P) :=
  let '(entries, mm) := st in
  match c with
  | Add key value =>
      match entries !! key with
      | None =>
          let entries := <[key := value]> entries in
          let '(mm, events) := onAdd (with_source entries mm) key value in
          ((entries, mm), events)
      | Some _ => (st, [])
      end
  | Remove key =>
      match entries !! key with
      | Some _ =>
          let entries := delete key entries in
          let '(mm, events) := onRemove (with_source entries mm) key in
          ((entries, mm), events)
      | None => (st, [])
      end
  | Update key value params =>
      match entries !! key with
      | Some _ =>
          let entries := <[key := value]> entries in
          let '(mm, events) := onUpdate (with_source entries mm) key value params in
          ((entries, mm), events)
      | None => (st, [])
      end
  | Reset =>
      let '(mm, events) := onReset (with_source ∅ mm) in
      ((∅, mm), events)
  end.

Fixpoint source_changes (cs : list SourceChange) (st : gmap K FV * t)
  : (gmap K FV * t) * list (MapEvent K TV P) :=
  match cs with
  | [] => (st, [])
  | c :: cs =>
      let '(st, events) := source_change c st in
      let '(st, later) := source_changes cs st in
      (st, events ++ later)
  end.

End MappedMap.

End MappedMap.

(** ** FilteredList *)

Module FilteredList.

(** How a call ends: normally, or with the TypeError JavaScript throws
    when a property of [null] is read or [null] is called. *)
Inductive Completion (A : Type) : Type :=
  | Normal (a : A)
  | TypeError.
Arguments Normal {A} a.
Arguments TypeError {A}.

(** [array.splice(idx, 0, x)]: a start beyond the end inserts at the end. *)
Definition splice_insert {A} (a : list A) (idx : nat) (x : A) : list A :=
  take idx a ++ x :: drop idx a.

(** [array.splice(idx, 1)]: a start beyond the end removes nothing. *)
Definition splice_delete {A} (a : list A) (idx : nat) : list A :=
  take idx a ++ drop (S idx) a.

(** [included[i]] as a condition: outside the array it is [undefined],
    which is falsy. *)
Definition js_read (included : list bool) (i : nat) : bool :=
  default false (included !! i).

(** [included[i] = x]: beyond the end the array grows; the holes this
    leaves read as [undefined] and [forEach] skips them, so a hole is
    [false] here. *)
Definition js_write (included : list bool) (i : nat) (x : bool) : list bool :=
  if decide (i < length included) then <[i := x]> included
  else included ++ replicate (i - length included) false ++ [x].

Section FilteredList.
Context {V P : Type}.

Definition Filter : Type := V → nat → bool.

(** The params of an update may be [null]: [None]. *)
Definition Event : Type := ListEvent V (option P).

(** [_source] is the items of the source list as its iterator yields
    them at this moment; [_subscription] tells whether the closure
    returned by [source.subscribe] is held. *)
Record t : Type := mk {
  _source : list V;
  _filter : option Filter;
  _included : option (list bool);
  _subscription : bool
}.

Definition constructor (source : list V) (filter : option Filter) : t :=
  mk source filter None false.

Definition _emitForUpdate (wasIncluded isIncluded : bool) (idx : nat)
    (value : V) (params : option P) : list Event :=
  if wasIncluded && negb isIncluded then [LRemove idx value]
  else if negb wasIncluded && isIncluded then [LAdd idx value]
  else if wasIncluded && isIncluded then [LUpdate idx value params]
  else [].

(** The loop of [_reapplyFilter] when a filter is set.  [oldIncluded]
    and [this._included] are one array when the mask existed before
    ([aliased]), and then [oldIncluded[i]] reads the array being
    written; otherwise [oldIncluded] is [null] and [wasIncluded] is
    true. *)
Fixpoint reapply_loop (filter : Filter) (silent aliased : bool)
    (rest : list V) (i translatedIndex : nat) (included : list bool)
  : list bool * list Event :=
  match rest with
  | [] => (included, [])
  | value :: rest =>
      let isIncluded := filter value i in
      let wasIncluded := if aliased then js_read included i else true in
      let included := js_write included i isIncluded in
      let events :=
        if silent then []
        else _emitForUpdate wasIncluded isIncluded translatedIndex value None in
      let translatedIndex := if isIncluded then S translatedIndex else translatedIndex in
      let '(included, later) :=
        reapply_loop filter silent aliased rest (S i) translatedIndex included in
      (included, events ++ later)
  end.

(** The loop of [_reapplyFilter] when the filter is [null] and a mask is
    left over. *)
Fixpoint unfilter_loop (silent : bool) (included : list bool) (rest : list V)
    (i : nat) : list Event :=
  match rest with
  | [] => []
  | value :: rest =>
      (if negb (js_read included i) && negb silent then [LAdd i value] else [])
      ++ unfilter_loop silent included rest (S i)
  end.

Definition _reapplyFilter (silent : bool) (fl : t) : t * list Event :=
  match _filter fl with
  | Some filter =>
      let aliased := bool_decide (is_Some (_included fl)) in
      let included :=
        match _included fl with
        | Some included => included
        | None => replicate (length (_source fl)) false
        end in
      let '(included, events) :=
        reapply_loop filter silent aliased (_source fl) 0 0 included in
      (mk (_source fl) (_filter fl) (Some included) (_subscription fl), events)
  | None =>
      match _included fl with
      | None => (fl, [])
      | Some included =>
          (mk (_source fl) (_filter fl) None (_subscription fl),
           unfilter_loop silent included (_source fl) 0)
      end
  end.

Definition setFilter (filter : option Filter) (fl : t) : t * list Event :=
  let fl := mk (_source fl) filter (_included fl) (_subscription fl) in
  if _subscription fl then _reapplyFilter false fl else (fl, []).

(** [while (i < idx) { if (this._included[i++]) t++; }], with [steps]
    turns to go. *)
Fixpoint translate_loop (included : list bool) (steps i t : nat) : nat :=
  match steps with
  | O => t
  | S steps => translate_loop included steps (S i) (if js_read included i then S t else t)
  end.

Definition _translateIndex (fl : t) (idx : nat) : nat :=
  match _included fl with
  | None => idx
  | Some included => translate_loop included idx 0 0
  end.

(** From [this.emitAdd(this._translateIndex(idx), value)] on. *)
Definition onAdd_emit (fl : t) (idx : nat) (value : V) : t * list Event :=
  let e := LAdd (_translateIndex fl idx) value in
  let '(fl, events) := _reapplyFilter false fl in
  (fl, e :: events).

Definition onAdd (fl : t) (idx : nat) (value : V) : t * list Event :=
  match _filter fl with
  | Some filter =>
      let included := filter value idx in
      let fl := mk (_source fl) (_filter fl)
                  ((λ a, splice_insert a idx included) <$> _included fl)
                  (_subscription fl) in
      if negb included then (fl, []) else onAdd_emit fl idx value
  | None => onAdd_emit fl idx value
  end.

(** [!this._filter || this._included![idx]] reads [null[idx]] when a
    filter is set and no mask exists. *)
Definition onRemove (fl : t) (idx : nat) (value : V) : Completion (t * list Event) :=
  let wasIncluded :=
    match _filter fl with
    | None => Normal true
    | Some _ =>
        match _included fl with
        | Some included => Normal (js_read included idx)
        | None => TypeError
        end
    end in
  match wasIncluded with
  | TypeError => TypeError
  | Normal wasIncluded =>
      let translatedIndex := _translateIndex fl idx in
      let fl := mk (_source fl) (_filter fl)
                  ((λ a, splice_delete a idx) <$> _included fl)
                  (_subscription fl) in
      let '(fl', events) := _reapplyFilter false fl in
      Normal (fl', (if wasIncluded then [LRemove translatedIndex value] else []) ++ events)
  end.

(** [this._filter!(value, idx)] calls [null] when no filter is set. *)
Definition onUpdate (fl : t) (idx : nat) (value : V) (params : option P)
  : Completion (t * list Event) :=
  match _included fl with
  | None => Normal (fl, [LUpdate idx value params])
  | Some included =>
      match _filter fl with
      | None => TypeError
      | Some filter =>
          let wasIncluded := js_read included idx in
          let isIncluded := filter value idx in
          let fl := mk (_source fl) (_filter fl)
                      (Some (js_write included idx isIncluded)) (_subscription fl) in
          Normal (fl, _emitForUpdate wasIncluded isIncluded
                        (_translateIndex fl idx) value params)
      end
  end.

Definition onReset (fl : t) : t * list Event :=
  let '(fl, events) := _reapplyFilter false fl in
  (fl, events ++ [LReset]).

Definition onMove (fl : t) (from to : nat) (value : V)
  : Completion (t * list Event) :=
  match _included fl with
  | None => Normal (fl, [LMove from to value])
  | Some included =>
      let tfrom := _translateIndex fl from in
      let tto := _translateIndex fl to in
      let wasIncluded := js_read included from in
      match _filter fl with
      | None => TypeError
      | Some filter =>
          let isIncluded := filter value to in
          let included := splice_insert (splice_delete included from) to isIncluded in
          let fl := mk (_source fl) (_filter fl) (Some included) (_subscription fl) in
          let events :=
            if wasIncluded && isIncluded then [LMove tfrom tto value]
            else if wasIncluded && negb isIncluded then [LRemove tfrom value]
            else if negb wasIncluded && isIncluded then [LAdd tto value]
            else [] in
          let '(fl, later) := _reapplyFilter false fl in
          Normal (fl, events ++ later)
      end
  end.

(** [super.onSubscribeFirst()] is the empty hook of BaseObservable; a
    silent pass emits nothing. *)
Definition onSubscribeFirst (fl : t) : t :=
  let fl := mk (_source fl) (_filter fl) (_included fl) true in
  fst (_reapplyFilter true fl).

Definition onUnsubscribeLast (fl : t) : t :=
  mk (_source fl) (_filter fl) None false.

(** [get length]: [this._included!.forEach(...)] on the mask. *)
Fixpoint forEach_count (included : list bool) (count : nat) : nat :=
  match included with
  | [] => count
  | included_i :: rest => forEach_count rest (if included_i then count + 1 else count)
  end.

Definition get_length (fl : t) : Completion nat :=
  match _included fl with
  | None => TypeError
  | Some included => Normal (forEach_count included 0)
  end.

(** *** FilterIterator *)

Record FilterIterator : Type := mkIterator {
  fi_included : option (list bool);
  _index : nat;
  _sourceIterator : list V
}.

(** [next()]: the [while (true)] loop ends with the source iterator. *)
Fixpoint next_loop (included : option (list bool)) (index : nat)
    (sourceIterator : list V) : Completion (IteratorResult V * FilterIterator) :=
  match sourceIterator with
  | [] => Normal (Done, mkIterator included index [])
  | value :: rest =>
      match included with
      | None => TypeError
      | Some mask =>
          if js_read mask index then
            Normal (Yield value, mkIterator included (S index) rest)
          else next_loop included (S index) rest
      end
  end.

Definition next (it : FilterIterator) : Completion (IteratorResult V * FilterIterator) :=
  next_loop (fi_included it) (_index it) (_sourceIterator it).

Definition newIterator (fl : t) : FilterIterator :=
  mkIterator (_included fl) 0 (_source fl).

(** Draining the iterator, as [for (const v of list)] does. *)
Fixpoint drain (fuel : nat) (it : FilterIterator) : option (Completion (list V)) :=
  match fuel with
  | O => None
  | S fuel =>
      match next it with
      | TypeError => Some TypeError
      | Normal (Done, _) => Some (Normal [])
      | Normal (Yield value, it) =>
          match drain fuel it with
          | Some (Normal values) => Some (Normal (value :: values))
          | other => other
          end
      end
  end.

Definition iterate (fl : t) : option (Completion (list V)) :=
  drain (S (length (_source fl))) (newIterator fl).

(** *** The source list *)

(** Modelled from the spec: the leaf list behind [_source], which is not
    among the sources.  It changes its own items and then emits one
    event whose index is valid for that change; [Reset] replaces the
    items wholesale. *)
Inductive SourceChange : Type :=
  | Insert (idx : nat) (value : V)
  | Remove (idx : nat)
  | Update (idx : nat) (value : V) (params : option P)
  | Move (fromIdx toIdx : nat)
  | Reset (items : list V).

Definition with_source (items : list V) (fl : t) : t :=
  mk items (_filter fl) (_included fl) (_subscription fl).

(** The change is made, then the handler of the FilteredList runs.  A
    change at an index the source does not have is no change and no
    event. *)
Definition source_change (c : SourceChange) (fl : t) : Completion (t * list Event) :=
  match c with
  | Insert idx value =>
      if decide (idx ≤ length (_source fl)) then
        Normal (onAdd (with_source (splice_insert (_source fl) idx value) fl) idx value)
      else Normal (fl, [])
  | Remove idx =>
      match _source fl !! idx with
      | Some value => onRemove (with_source (splice_delete (_source fl) idx) fl) idx value
      | None => Normal (fl, [])
      end
  | Update idx value params =>
      if decide (idx < length (_source fl)) then
        onUpdate (with_source (<[idx := value]> (_source fl)) fl) idx value params
      else Normal (fl, [])
  | Move fromIdx toIdx =>
      match _source fl !! fromIdx with
      | Some value =>
          if decide (toIdx < length (_source fl)) then
            onMove (with_source
                      (splice_insert (splice_delete (_source fl) fromIdx) toIdx value) fl)
              fromIdx toIdx value
          else Normal (fl, [])
      | None => Normal (fl, [])
      end
  | Reset items => Normal (onReset (with_source items fl))
  end.

(** A sequence of changes; the events of all of them, in order. *)
Fixpoint source_changes (cs : list SourceChange) (fl : t) : Completion (t * list Event) :=
  match cs with
  | [] => Normal (fl, [])
  | c :: cs =>
      match source_change c fl with
      | TypeError => TypeError
      | Normal (fl, events) =>
          match source_changes cs fl with
          | TypeError => TypeError
          | Normal (fl, later) => Normal (fl, events ++ later)
          end
      end
  end.

(** The source elements that pass the filter at their index, in source
    order. *)
Fixpoint satisfying_from (filter : Filter) (items : list V) (i : nat) : list V :=
  match items with
  | [] => []
  | value :: rest =>
      if filter value i then value :: satisfying_from filter rest (S i)
      else satisfying_from filter rest (S i)
  end.

Definition satisfying (filter : Filter) (items : list V) : list V :=
  satisfying_from filter items 0.

(** A filter that looks at the value alone. *)
Definition on_value (p : V → bool) : Filter := λ value _, p value.

(** The mask agrees with the source under a filter on values. *)
Definition tracks (p : V → bool) (fl : t) : Prop :=
  _filter fl = Some (on_value p) ∧ _included fl = Some (p <$> _source fl).

Definition not_reset (c : SourceChange) : Prop :=
  match c with Reset _ => False | _ => True end.

(** The mask a filter gives for a list of items: one bit per item,
    telling whether the item passes the filter at its index. *)
Fixpoint mask_from (filter : Filter) (items : list V) (i : nat) : list bool :=
  match items with
  | [] => []
  | value :: rest => filter value i :: mask_from filter rest (S i)
  end.

Definition mask_of (filter : Filter) (items : list V) : list bool :=
  mask_from filter items 0.

(** The filter is set and the mask is the one the filter gives for the
    source as it is now. *)
Definition agrees (filter : Filter) (fl : t) : Prop :=
  _filter fl = Some filter ∧ _included fl = Some (mask_of filter (_source fl)).

(** The mask, when there is one, is no longer than the source. *)
Definition mask_fits (fl : t) : Prop :=
  match _included fl with
  | Some included => length included ≤ length (_source fl)
  | None => True
  end.

(** The changes after which the handler recomputes the mask or no item
    changes its index: all but an insert of an item that fails the filter
    before the end of the source and a reset to a shorter source. *)
Definition settles (filter : Filter) (fl : t) (c : SourceChange) : Prop :=
  match c with
  | Insert idx value => filter value idx = true ∨ idx = length (_source fl)
  | Reset items => length (_source fl) ≤ length items
  | _ => True
  end.

End FilteredList.

Arguments t : clear implicits.
Arguments Event : clear implicits.
Arguments SourceChange : clear implicits.
Arguments FilterIterator : clear implicits.

(** A filter on the index alone: everything but the first element. *)
Definition all_but_first : Filter (V:=nat) := λ _ index, bool_decide (1 ≤ index).

(** A filter on the value alone. *)
Definition even_values : Filter (V:=nat) := λ value _, Nat.even value.

End FilteredList.

(** * Properties *)

(** ** BaseObservable *)

Module BaseObservableFacts.
Import BaseObservable.

Lemma subscribe_first (h : handler) (c : Collection) :
  _handlers c = ∅ →
  subscribe h c = (onSubscribeFirst (with_handlers {[h]} c), unsubscribe (Some h)).
Proof.
  intros Hc. unfold subscribe. rewrite Hc, (right_id_L ∅ (∪)).
  cbn [with_handlers _handlers]. rewrite size_singleton.
  destruct (decide (1 = 1)); done.
Qed.

(** Whenever no handler other than [h] is subscribed, [unsubscribe(h)]
    runs the hook, also when [h] itself is not subscribed. *)
Lemma unsubscribe_runs_hook (h : handler) (c : Collection) :
  _handlers c ⊆ {[h]} →
  unsubscribe (Some h) c = onUnsubscribeLast (with_handlers ∅ c).
Proof.
  intros Hc. unfold unsubscribe.
  replace (_handlers c ∖ {[h]}) with (∅ : gset handler) by set_solver.
  cbn [with_handlers _handlers]. rewrite size_empty.
  destruct (decide (0 = 0)); done.
Qed.

(** C5.  The code at the double unsubscribe: after one [subscribe] on a
    new observable, calling the returned closure twice runs
    [onUnsubscribeLast] twice (and [onSubscribeFirst] once), for every
    handler. *)
Theorem double_unsubscribe_runs_hook_twice (h : handler) :
  let '(c, unsubscribe) := subscribe h constructor in
  firstSubscribeCalls c = 1 ∧
  firstUnsubscribeCalls (unsubscribe c) = 1 ∧
  firstUnsubscribeCalls (unsubscribe (unsubscribe c)) = 2.
Proof.
  rewrite subscribe_first by done.
  rewrite !unsubscribe_runs_hook; cbn; set_solver.
Qed.

(** Subscribing a handler that is already the only one runs
    [onSubscribeFirst] again, although the size stays at one. *)
Lemma resubscribe_runs_hook_again (h : handler) :
  let c := (subscribe h constructor).1 in
  firstSubscribeCalls (subscribe h c).1 = 2.
Proof.
  rewrite subscribe_first by done. unfold subscribe.
  cbn [fst with_handlers onSubscribeFirst constructor _handlers
       firstSubscribeCalls firstUnsubscribeCalls].
  replace ({[h]} ∪ {[h]}) with ({[h]} : gset handler) by set_solver.
  rewrite size_singleton. destruct (decide (1 = 1)); done.
Qed.

End BaseObservableFacts.

(** ** findAndUpdateInArray *)

Module FindAndUpdateFacts.
Import Utils.

Section facts.
Context {T P : Type}.
Implicit Types (predicate : T → bool) (array : list T) (updater : T → option P).

Lemma findIndex_from_none predicate array (i : Z) :
  (∀ x, x ∈ array → predicate x = false) →
  findIndex_from predicate array i = (-1)%Z.
Proof.
  revert i. induction array as [|x rest IH]; intros i Hall; [done|].
  cbn. rewrite (Hall x) by apply list_elem_of_here.
  apply IH. intros y Hy. apply Hall. by apply list_elem_of_further.
Qed.

Lemma findIndex_from_first predicate array (i : Z) (n : nat) (x : T) :
  array !! n = Some x → predicate x = true →
  (∀ j y, j < n → array !! j = Some y → predicate y = false) →
  findIndex_from predicate array i = (i + Z.of_nat n)%Z.
Proof.
  revert i n. induction array as [|a rest IH]; intros i n Hn Hx Hbefore; [done|].
  destruct n as [|n]; cbn in *.
  - injection Hn as ->. rewrite Hx. lia.
  - rewrite (Hbefore 0 a) by (done || lia).
    rewrite (IH (i + 1)%Z n Hn Hx).
    + lia.
    + intros j y Hj Hy. apply (Hbefore (S j) y); [lia | done].
Qed.

(** Some element passes, and then one of them is the first. *)
Lemma first_passing predicate array x :
  x ∈ array → predicate x = true →
  ∃ n y, array !! n = Some y ∧ predicate y = true ∧
         ∀ j z, j < n → array !! j = Some z → predicate z = false.
Proof.
  induction array as [|a rest IH]; intros Hin Hx; [by apply elem_of_nil in Hin|].
  destruct (predicate a) eqn:Ha.
  - exists 0, a. repeat split; [done|]. intros j z Hj. lia.
  - apply elem_of_cons in Hin as [->|Hin]; [congruence|].
    destruct (IH Hin Hx) as (n & y & Hn & Hy & Hbefore).
    exists (S n), y. repeat split; [done..|].
    intros [|j] z Hj Hz; cbn in Hz; [congruence|].
    apply (Hbefore j z); [lia | done].
Qed.

(** C7.  The result is true exactly when some element passes the
    predicate.  When none passes, the updater is not called and nothing
    is emitted.  When the first passing element is [x] at index [n], the
    updater is called once, on [x], and the emitted events are one
    update at [n] with the payload, or none when the updater returned
    false; the result is true in both cases. *)
Theorem findAndUpdateInArray_spec predicate array updater :
  let r := findAndUpdateInArray predicate array updater in
  (found r = true ↔ ∃ x, x ∈ array ∧ predicate x = true) ∧
  ((∀ x, x ∈ array → predicate x = false) →
     found r = false ∧ updaterCalls r = [] ∧ emitted r = []) ∧
  (∀ n x, array !! n = Some x → predicate x = true →
     (∀ j y, j < n → array !! j = Some y → predicate y = false) →
     found r = true ∧ updaterCalls r = [x] ∧
     emitted r = match updater x with
                 | Some params => [LUpdate n x params]
                 | None => []
                 end).
Proof.
  intros r.
  assert (Hnone : (∀ x, x ∈ array → predicate x = false) →
                  found r = false ∧ updaterCalls r = [] ∧ emitted r = []).
  { intros Hall. subst r. unfold findAndUpdateInArray, findIndex.
    rewrite findIndex_from_none by done.
    destruct (decide ((-1)%Z ≠ (-1)%Z)); done. }
  assert (Hfirst : ∀ n x, array !! n = Some x → predicate x = true →
     (∀ j y, j < n → array !! j = Some y → predicate y = false) →
     found r = true ∧ updaterCalls r = [x] ∧
     emitted r = match updater x with
                 | Some params => [LUpdate n x params]
                 | None => []
                 end).
  { intros n x Hn Hx Hbefore. subst r. unfold findAndUpdateInArray, findIndex.
    rewrite (findIndex_from_first _ _ 0%Z n x) by done.
    destruct (decide ((0 + Z.of_nat n)%Z ≠ (-1)%Z)) as [_|Hneg]; [|lia].
    replace (Z.to_nat (0 + Z.of_nat n)) with n by lia.
    rewrite Hn. by destruct (updater x). }
  split; [|by split].
  split.
  - intros Hfound.
    destruct (decide (Exists (λ x, predicate x = true) array)) as [Hex|Hno].
    + apply Exists_exists in Hex. done.
    + rewrite <- Forall_Exists_neg, Forall_forall in Hno.
      destruct Hnone as [Hf _]; [|congruence].
      intros x Hx. specialize (Hno x Hx). by destruct (predicate x).
  - intros (x & Hin & Hx).
    destruct (first_passing _ _ _ Hin Hx) as (n & y & Hn & Hy & Hbefore).
    by destruct (Hfirst n y Hn Hy Hbefore).
Qed.
End facts.

End FindAndUpdateFacts.

(** ** sortedIndex *)

Module SortedIndexFacts.
Import Utils.

Lemma ushr1_half (n : Z) : (0 ≤ n < 2 ^ 32)%Z → ushr1 n = (n / 2)%Z.
Proof.
  intros Hn. unfold ushr1. rewrite Z.mod_small by done.
  by rewrite Z.shiftr_div_pow2.
Qed.

(** C6, as stated, at [array = [1; 1; 1]], [value = 1] and the comparator
    [a - b]: the first probe is at index 1 and compares equal, so 1 is
    returned, although index 0 holds an equal element and the value can be
    inserted there. *)
Lemma sortedIndex_not_leftmost :
  sortedIndex Z.sub [1; 1; 1]%Z 1%Z = Some 1%Z ∧
  ordered Z.sub [1; 1; 1]%Z ∧
  ordered Z.sub (insertAt [1; 1; 1]%Z 0 1%Z) ∧
  [1; 1; 1]%Z !! 0 = Some 1%Z ∧ (1 - 1 = 0)%Z.
Proof.
  split; [vm_compute; reflexivity|].
  repeat split; repeat constructor; unfold may_precede; lia.
Qed.

Section facts.
Context {T : Type} (comparator : T → T → Z).
Hypothesis Hcons : consistent comparator.
Variables (array : list T) (value : T).
Hypothesis Hord : ordered comparator array.

Local Abbreviation cmp := (comparator value).

Lemma may_precede_refl x : may_precede comparator x x.
Proof.
  destruct Hcons as [Hswap _]. unfold may_precede.
  specialize (Hswap x x). lia.
Qed.

Lemma ordered_lookup i j x y :
  i ≤ j → array !! i = Some x → array !! j = Some y →
  may_precede comparator x y.
Proof.
  intros Hij Hi Hj.
  destruct (decide (i = j)) as [->|Hne].
  { replace y with x by congruence. apply may_precede_refl. }
  unfold ordered in Hord. rewrite <- (take_drop j array) in Hord.
  eapply StronglySorted_app_1_elem_of; [exact Hord| |].
  - apply list_elem_of_lookup. exists i. rewrite lookup_take_lt by lia. done.
  - apply list_elem_of_lookup. exists 0. rewrite lookup_drop.
    by rewrite Nat.add_0_r.
Qed.

(** Along an ordered array the sign of [comparator value _] only goes
    down. *)
Lemma sign_pos_before i j x y :
  i ≤ j → array !! i = Some x → array !! j = Some y →
  (0 < cmp y)%Z → (0 < cmp x)%Z.
Proof.
  intros Hij Hi Hj Hy. destruct Hcons as [Hswap Htrans].
  pose proof (ordered_lookup i j x y Hij Hi Hj) as Hxy.
  destruct (decide (0 < cmp x)%Z) as [|Hn]; [done|exfalso].
  assert (may_precede comparator value y) as Hvy.
  { apply (Htrans value x y); [unfold may_precede; lia | done]. }
  unfold may_precede in Hvy. lia.
Qed.

Lemma sign_neg_after i j x y :
  i ≤ j → array !! i = Some x → array !! j = Some y →
  (cmp x < 0)%Z → (cmp y < 0)%Z.
Proof.
  intros Hij Hi Hj Hx. destruct Hcons as [Hswap Htrans].
  pose proof (ordered_lookup i j x y Hij Hi Hj) as Hxy.
  destruct (decide (cmp y < 0)%Z) as [|Hn]; [done|exfalso].
  assert (may_precede comparator y value) as Hyv.
  { unfold may_precede. pose proof (Hswap value y). pose proof (Hswap y value). lia. }
  assert (may_precede comparator x value) as Hxv by by apply (Htrans x y value).
  unfold may_precede in Hxv. pose proof (Hswap x value). pose proof (Hswap value x). lia.
Qed.

Lemma sortedIndex_loop_spec fuel (low high : Z) :
  (Z.of_nat (length array) ≤ 2 ^ 31)%Z →
  (0 ≤ low ≤ high)%Z → (high ≤ Z.of_nat (length array))%Z →
  (high - low < Z.of_nat fuel)%Z →
  strict comparator array value low high →
  ∃ r, sortedIndex_loop comparator fuel array value low high = Some r ∧
       (low ≤ r ≤ high)%Z ∧
       (strict comparator array value r r ∨ hit comparator array value r).
Proof.
  intros Hlen. revert low high.
  induction fuel as [|fuel IH]; intros low high Hlow Hhigh Hfuel Hstrict; [lia|].
  cbn [sortedIndex_loop].
  destruct (low <? high)%Z eqn:Hlt.
  2:{ apply Z.ltb_ge in Hlt. assert (low = high) as -> by lia.
      exists high. split; [done|]. split; [lia|]. by left. }
  apply Z.ltb_lt in Hlt.
  rewrite ushr1_half by lia.
  set (mid := ((low + high) / 2)%Z).
  assert (low ≤ mid < high)%Z as Hmid.
  { subst mid. split.
    - apply Z.div_le_lower_bound; lia.
    - apply Z.div_lt_upper_bound; lia. }
  destruct (array !! Z.to_nat mid) as [x|] eqn:Hx.
  2:{ apply lookup_ge_None in Hx. lia. }
  destruct Hstrict as [Hbelow Habove].
  destruct (cmp x >? 0)%Z eqn:Hpos.
  { apply Z.gtb_lt in Hpos.
    destruct (IH (mid + 1)%Z high) as (r & Hr & Hrange & Hres); try lia.
    - split; [|done].
      intros i y Hi Hy. apply (sign_pos_before i (Z.to_nat mid) y x); [lia|done..].
    - exists r. split; [done|]. split; [lia|done]. }
  destruct (cmp x <? 0)%Z eqn:Hneg.
  { apply Z.ltb_lt in Hneg.
    destruct (IH low mid) as (r & Hr & Hrange & Hres); try lia.
    - split; [done|].
      intros i y Hi Hy. apply (sign_neg_after (Z.to_nat mid) i x y); [lia|done..].
    - exists r. split; [done|]. split; [lia|done]. }
  assert (cmp x = 0%Z) as Hzero.
  { apply Z.ltb_ge in Hneg. rewrite Z.gtb_ltb in Hpos. apply Z.ltb_ge in Hpos. lia. }
  exists mid. split; [|split; [lia|]].
  - destruct fuel as [|fuel]; [lia|]. cbn [sortedIndex_loop].
    by rewrite Z.ltb_irrefl.
  - right. by exists x.
Qed.

(** Either outcome of the loop leaves [value] insertable at [r]. *)
Lemma insertable (r : nat) :
  r ≤ length array →
  strict comparator array value (Z.of_nat r) (Z.of_nat r)
  ∨ hit comparator array value (Z.of_nat r) →
  ordered comparator (insertAt array r value).
Proof.
  intros Hr Hres. destruct Hcons as [Hswap Htrans].
  assert (Hsplit : ∀ i x, array !! i = Some x →
            (i < r → (0 ≤ cmp x)%Z) ∧ (r ≤ i → (cmp x ≤ 0)%Z)).
  { intros i x Hi. destruct Hres as [[Hbelow Habove]|(y & Hy & Hzero)].
    - split; intros Hir; [apply Z.lt_le_incl, (Hbelow i)|apply Z.lt_le_incl, (Habove i)];
        (lia || done).
    - rewrite Nat2Z.id in Hy. split; intros Hir.
      + destruct (decide (cmp x < 0)%Z) as [Hn|]; [|lia].
        pose proof (sign_neg_after i r x y ltac:(lia) Hi Hy Hn). lia.
      + destruct (decide (0 < cmp x)%Z) as [Hp|]; [|lia].
        pose proof (sign_pos_before r i y x Hir Hy Hi Hp). lia. }
  unfold insertAt, ordered. apply StronglySorted_app. split; [|split].
  - intros x1 x2 Hx1 Hx2.
    apply list_elem_of_lookup in Hx1 as [i Hi].
    apply lookup_take_Some in Hi as [Hi Hir].
    apply elem_of_cons in Hx2 as [->|Hx2].
    + destruct (Hsplit i x1 Hi) as [Hge _]. specialize (Hge Hir).
      unfold may_precede. pose proof (Hswap x1 value). pose proof (Hswap value x1). lia.
    + apply list_elem_of_lookup in Hx2 as [j Hj]. rewrite lookup_drop in Hj.
      apply (ordered_lookup i (r + j) x1 x2); [lia|done..].
  - unfold ordered in Hord. rewrite <- (take_drop r array) in Hord.
    by apply StronglySorted_app_1_l in Hord.
  - apply StronglySorted_cons. split.
    + apply Forall_forall. intros y Hy.
      apply list_elem_of_lookup in Hy as [j Hj]. rewrite lookup_drop in Hj.
      destruct (Hsplit (r + j) y Hj) as [_ Hle]. apply Hle. lia.
    + unfold ordered in Hord. rewrite <- (take_drop r array) in Hord.
      by apply StronglySorted_app_1_r in Hord.
Qed.

(** C6, as the code has it.  On an ordered array of at most 2^31
    elements and a consistent comparator, [sortedIndex] returns an index
    [r] at which the value can be inserted with the array still ordered.
    When some element compares equal to the value, the element at [r]
    compares equal to it (the first such element the search probes).
    When no element compares equal, [r] is the leftmost index at which
    the value can be inserted. *)
Theorem sortedIndex_insertion_point :
  (Z.of_nat (length array) ≤ 2 ^ 31)%Z →
  ∃ r : nat,
    sortedIndex comparator array value = Some (Z.of_nat r) ∧
    r ≤ length array ∧
    ordered comparator (insertAt array r value) ∧
    ((∃ x, x ∈ array ∧ cmp x = 0%Z) →
       ∃ x, array !! r = Some x ∧ cmp x = 0%Z) ∧
    ((∀ x, x ∈ array → cmp x ≠ 0%Z) →
       ∀ r', r' ≤ length array → ordered comparator (insertAt array r' value) →
             r ≤ r').
Proof.
  intros Hlen. unfold sortedIndex.
  destruct (sortedIndex_loop_spec (S (length array)) 0 (Z.of_nat (length array)))
    as (r & Hr & Hrange & Hres); try lia.
  { split; [intros i x Hi; lia|].
    intros i x Hi Hx. apply lookup_lt_Some in Hx. lia. }
  exists (Z.to_nat r). rewrite Z2Nat.id by lia.
  split; [done|]. split; [lia|].
  assert (Hres' : strict comparator array value (Z.of_nat (Z.to_nat r))
                    (Z.of_nat (Z.to_nat r))
                  ∨ hit comparator array value (Z.of_nat (Z.to_nat r))).
  { by rewrite Z2Nat.id by lia. }
  split; [apply insertable; [lia|done]|].
  split.
  - intros (x & Hin & Hzero).
    destruct Hres as [[Hbelow Habove]|Hhit]; [exfalso|done].
    apply list_elem_of_lookup in Hin as [i Hi].
    destruct (decide (Z.of_nat i < r)%Z).
    + pose proof (Hbelow i x ltac:(lia) Hi). lia.
    + pose proof (Habove i x ltac:(lia) Hi). lia.
  - intros Hnone r' Hr' Hins.
    destruct Hres as [[Hbelow _]|(x & Hx & Hzero)].
    2:{ exfalso. apply (Hnone x); [|done]. apply list_elem_of_lookup. eauto. }
    destruct (decide (Z.to_nat r ≤ r')) as [|Hgt]; [done|exfalso].
    destruct (array !! r') as [x|] eqn:Hx.
    2:{ apply lookup_ge_None in Hx. lia. }
    assert (0 < cmp x)%Z as Hpos by (apply (Hbelow r'); [lia|done]).
    unfold insertAt, ordered in Hins.
    apply StronglySorted_app_1_r, StronglySorted_cons in Hins as [Hall _].
    rewrite Forall_forall in Hall. specialize (Hall x).
    unfold may_precede in Hall.
    assert (cmp x ≤ 0)%Z; [|lia].
    apply Hall, list_elem_of_lookup. exists 0.
    rewrite lookup_drop. by rewrite Nat.add_0_r.
Qed.
End facts.

Lemma sortedIndex_insertion_point_witness :
  ∃ r : nat,
    sortedIndex Z.sub [1; 3; 3; 7]%Z 3%Z = Some (Z.of_nat r) ∧
    r ≤ 4 ∧
    ordered Z.sub (insertAt [1; 3; 3; 7]%Z r 3%Z) ∧
    ((∃ x, x ∈ [1; 3; 3; 7]%Z ∧ (3 - x)%Z = 0%Z) →
       ∃ x, [1; 3; 3; 7]%Z !! r = Some x ∧ (3 - x)%Z = 0%Z) ∧
    ((∀ x, x ∈ [1; 3; 3; 7]%Z → (3 - x)%Z ≠ 0%Z) →
       ∀ r', r' ≤ 4 → ordered Z.sub (insertAt [1; 3; 3; 7]%Z r' 3%Z) → r ≤ r').
Proof.
  apply (sortedIndex_insertion_point Z.sub).
  - split; unfold may_precede; intros; lia.
  - repeat constructor; unfold may_precede; lia.
  - simpl. lia.
Defined.

End SortedIndexFacts.

(** ** JoinedMap: events and lookup *)

Module JoinedMapFacts.
Import JoinedMap.

Section facts.
Context {K V P : Type} `{Countable K}.
Variable store : source → list (K * V).
Implicit Types (jm : t) (src : source) (key : K) (value : V).

Lemma indexOf_from_first (l : list source) src (z : Z) (i : nat) :
  l !! i = Some src → (∀ n, n < i → l !! n ≠ Some src) →
  indexOf_from l src z = (z + Z.of_nat i)%Z.
Proof.
  revert z i. induction l as [|x rest IH]; intros z i Hi Hfirst; [done|].
  cbn [indexOf_from]. destruct i as [|i]; cbn in Hi.
  - injection Hi as ->. rewrite decide_True by done. lia.
  - rewrite decide_False.
    + rewrite (IH (z + 1)%Z i Hi); [lia|].
      intros n Hn. apply (Hfirst (S n)). lia.
    + intros ->. by apply (Hfirst 0); [lia|].
Qed.

Lemma occluded_loop_false (earlier : list source) key :
  (∀ n s, earlier !! n = Some s → map_get (store s) key = None) →
  occluded_loop store earlier key = false.
Proof.
  induction earlier as [|s rest IH]; intros Hnone; [done|].
  cbn [occluded_loop]. rewrite (Hnone 0 s) by done.
  apply IH. intros n s' Hn. by apply (Hnone (S n)).
Qed.

Lemma occludedValue_loop_first (later : list source) key (m : nat) s value :
  later !! m = Some s → map_get (store s) key = Some value →
  (∀ n s', n < m → later !! n = Some s' → map_get (store s') key = None) →
  occludedValue_loop store later key = Some value.
Proof.
  revert m. induction later as [|x rest IH]; intros m Hm Hs Hbefore; [done|].
  cbn [occludedValue_loop]. destruct m as [|m]; cbn in Hm.
  - injection Hm as ->. by rewrite Hs.
  - rewrite (Hbefore 0 x) by (lia || done).
    apply (IH m); [done..|].
    intros n s' Hn Hs'. apply (Hbefore (S n) s'); [lia|done].
Qed.

(** C1.  [src] is the source at position [i] (its first position in the
    list), no source before it holds [key], and [later], at position
    [j > i], is the first source after [i] that holds [key], with
    [laterValue].  Then an add of [(key, value)] at [src] emits exactly
    remove(key, laterValue) and then add(key, value), and a remove of
    [(key, value)] at [src] emits exactly remove(key, value) and then
    add(key, laterValue). *)
Theorem occlusion_transition jm src key value (i j : nat) later laterValue :
  _sources jm !! i = Some src →
  (∀ n, n < i → _sources jm !! n ≠ Some src) →
  (∀ n s, n < i → _sources jm !! n = Some s → map_get (store s) key = None) →
  i < j →
  _sources jm !! j = Some later →
  map_get (store later) key = Some laterValue →
  (∀ n s, i < n < j → _sources jm !! n = Some s → map_get (store s) key = None) →
  onAdd (P:=P) store jm src key value = [MRemove key laterValue; MAdd key value] ∧
  onRemove (P:=P) store jm src key value = [MRemove key value; MAdd key laterValue].
Proof.
  intros Hi Hfirst Hearlier Hij Hj Hlater Hbetween.
  assert (Hidx : indexOf (_sources jm) src = Z.of_nat i).
  { unfold indexOf. rewrite (indexOf_from_first _ _ _ i) by done. lia. }
  assert (Hocc : _isKeyAtSourceOccluded store jm src key = false).
  { unfold _isKeyAtSourceOccluded. rewrite Hidx, Nat2Z.id.
    apply occluded_loop_false. intros n s Hn.
    apply lookup_take_Some in Hn as [Hn Hlt]. by apply (Hearlier n). }
  assert (Hval : _getValueFromOccludedSources store jm src key = Some laterValue).
  { unfold _getValueFromOccludedSources. rewrite Hidx.
    replace (Z.to_nat (Z.of_nat i + 1)) with (S i) by lia.
    apply (occludedValue_loop_first _ _ (j - S i) later); [|done|].
    - rewrite lookup_drop. by replace (S i + (j - S i)) with j by lia.
    - intros n s Hn Hs. rewrite lookup_drop in Hs.
      apply (Hbetween (S i + n)); [lia|done]. }
  unfold onAdd, onRemove. by rewrite Hocc, Hval.
Qed.

(** When every value the sources hold for [key] is truthy, [get] is the
    value of the first source that holds [key]. *)
Lemma get_first_source_when_truthy (truthy : V → bool) jm key :
  (∀ s value, s ∈ _sources jm → map_get (store s) key = Some value →
              truthy value = true) →
  get truthy store jm key = occludedValue_loop store (_sources jm) key.
Proof.
  unfold get. induction (_sources jm) as [|s rest IH]; intros Htruthy; [done|].
  cbn [get_loop occludedValue_loop].
  destruct (map_get (store s) key) as [value|] eqn:Hs.
  - by rewrite (Htruthy s value) by (apply list_elem_of_here || done).
  - apply IH. intros s' value Hin. apply Htruthy. by apply list_elem_of_further.
Qed.

End facts.

Lemma occlusion_transition_witness :
  onAdd (P:=unit) collision_store (constructor [0; 1]) 0 "a" (JNum 1)
    = [MRemove "a" (JNum 2); MAdd "a" (JNum 1)] ∧
  onRemove (P:=unit) collision_store (constructor [0; 1]) 0 "a" (JNum 1)
    = [MRemove "a" (JNum 1); MAdd "a" (JNum 2)].
Proof.
  apply (occlusion_transition collision_store (constructor [0; 1]) 0 "a" (JNum 1)
           0 1 1 (JNum 2)).
  - reflexivity.
  - intros n Hn. lia.
  - intros n s Hn. lia.
  - lia.
  - reflexivity.
  - reflexivity.
  - intros n s Hn. lia.
Defined.

(** C8.  The code at sources [{a: 0}], [{a: 5}]: the first source holds
    ["a"] with the value 0, and [get("a")] is 5; with [{a: 0}] alone,
    [get("a")] is undefined. *)
Theorem get_skips_falsy_value :
  map_get (falsy_store 0) "a" = Some (JNum 0) ∧
  get js_truthy falsy_store (constructor [0; 1]) "a" = Some (JNum 5) ∧
  get js_truthy falsy_store (constructor [0]) "a" = None.
Proof. vm_compute. done. Qed.

End JoinedMapFacts.

(** ** JoinedMap: iteration *)

Module JoinedIteratorFacts.
Import JoinedMap.

Section facts.
Context {K V : Type} `{Countable K}.
Variable store : source → list (K * V).
Implicit Types (it : @JoinedIterator K V _ _) (seen : gset K) (l : list (K * V)).

(** *** [first_wins] *)



Lemma first_wins_sublist seen l : sublist (first_wins seen l) l.
Proof.
  revert seen. induction l as [|[k v] rest IH]; intros seen; cbn; [done|].
  case_decide; [by apply sublist_cons | by apply sublist_skip].
Qed.

Lemma first_wins_elem_of seen l key value :
  (key, value) ∈ first_wins seen l ↔ key ∉ seen ∧ map_get l key = Some value.
Proof.
  revert seen. induction l as [|[k v] rest IH]; intros seen; cbn [first_wins map_get].
  { split; [by intros ?%elem_of_nil | by intros [_ ?]]. }
  destruct (decide (k ∈ seen)) as [Hk|Hk].
  - rewrite IH. destruct (decide (k = key)) as [->|Hne]; [tauto|done].
  - rewrite elem_of_cons, IH.
    destruct (decide (k = key)) as [->|Hne].
    + split.
      * intros [[= ->]|[Hnot _]]; [done|set_solver].
      * intros [_ [= ->]]. by left.
    + split.
      * intros [[= ]|[Hnot Hget]]; [done|]. split; [set_solver|done].
      * intros [Hnot Hget]. right. split; [set_solver|done].
Qed.

Lemma map_get_app l1 l2 key :
  map_get (l1 ++ l2) key =
  match map_get l1 key with Some v => Some v | None => map_get l2 key end.
Proof.
  induction l1 as [|[k v] rest IH]; cbn; [done|]. by case_decide.
Qed.


Lemma entry_count_all_entries (sources : list source) :
  entry_count store (mk sources None) = length (all_entries store sources).
Proof.
  unfold entry_count, all_entries. cbn [_sources].
  assert (Hgen : ∀ n, foldl (λ sum s, sum + length (store s)) n sources
                      = n + length (concat (store <$> sources))).
  { induction sources as [|s rest IH]; intros n; cbn; [lia|].
    rewrite IH, length_app. lia. }
  apply (Hgen 0).
Qed.

Lemma all_entries_cons (s : source) (sources : list source) :
  all_entries store (s :: sources) = store s ++ all_entries store sources.
Proof. done. Qed.

Lemma source_turns_cons (s : source) (sources : list source) :
  source_turns store (s :: sources)
  = S (S (length (store s))) + source_turns store sources.
Proof. done. Qed.

(** *** One turn of the loop *)

Lemma next_source_step_spec it cur tail :
  let it' := (next_source_step it cur).2 in
  it_sources it' = it_sources it ∧ _sourceIndex it' = _sourceIndex it ∧
  iterator_turns (_currentIterator it') ≤ length cur ∧
  match (next_source_step it cur).1 with
  | None =>
      first_wins (_encounteredKeys it') (default [] (_currentIterator it') ++ tail)
      = first_wins (_encounteredKeys it) (cur ++ tail)
  | Some (Yield kv) =>
      first_wins (_encounteredKeys it) (cur ++ tail)
      = kv :: first_wins (_encounteredKeys it')
                (default [] (_currentIterator it') ++ tail)
  | Some Done => False
  end.
Proof.
  destruct cur as [|[key value] rest]; cbn; [done|].
  case_decide as Hseen; cbn; rewrite ?decide_True, ?decide_False by done;
    repeat split; (done || lia).
Qed.

Lemma next_body_spec it :
  (-1 ≤ _sourceIndex it)%Z →
  turn_ok store it (next_body store it).1 (next_body store it).2.
Proof.
  intros Hidx. unfold next_body.
  destruct (_currentIterator it) as [cur|] eqn:Hcur.
  - pose proof (next_source_step_spec it cur
      (all_entries store (drop (Z.to_nat (_sourceIndex it + 1)) (it_sources it))))
      as (Hsrc & Hix & Hturns & Hres).
    unfold turn_ok, remaining, turns_left. rewrite Hsrc, Hix, Hcur. cbn [default iterator_turns].
    split; [done|]. split; [done|].
    destruct (next_source_step it cur).1 as [[|kv]|]; [done|done|].
    split; [lia|done].
  - cbv zeta. cbn [it_sources].
    set (idx := (_sourceIndex it + 1)%Z).
    destruct (Z.of_nat (length (it_sources it)) <=? idx)%Z eqn:Hend.
    + apply Z.leb_le in Hend. unfold turn_ok, remaining. cbn. rewrite Hcur.
      split; [done|]. split; [lia|].
      rewrite drop_ge by lia. done.
    + apply Z.leb_gt in Hend.
      destruct (it_sources it !! Z.to_nat idx) as [s|] eqn:Hs.
      2:{ apply lookup_ge_None in Hs. lia. }
      set (it1 := mkIterator (it_sources it) idx None (_encounteredKeys it)).
      pose proof (next_source_step_spec it1 (store s)
        (all_entries store (drop (Z.to_nat (idx + 1)) (it_sources it))))
        as (Hsrc & Hix & Hturns & Hres).
      assert (Hdrop : drop (Z.to_nat idx) (it_sources it)
                      = s :: drop (Z.to_nat (idx + 1)) (it_sources it)).
      { replace (Z.to_nat (idx + 1)) with (S (Z.to_nat idx)) by lia.
        by apply drop_S. }
      unfold turn_ok, remaining, turns_left.
      rewrite Hsrc, Hix, Hcur. cbn [it1 it_sources _sourceIndex _encounteredKeys] in *.
      fold idx. rewrite Hdrop. cbn [default iterator_turns app].
      rewrite source_turns_cons, !all_entries_cons.
      split; [done|]. split; [lia|].
      destruct (next_source_step it1 (store s)).1 as [[|kv]|]; [done|done|].
      split; [lia|done].
Qed.

Lemma next_loop_spec fuel it :
  (-1 ≤ _sourceIndex it)%Z → turns_left store it ≤ fuel →
  ∃ res it', next_loop store fuel it = Some (res, it') ∧
             turn_ok store it (Some res) it'.
Proof.
  revert it. induction fuel as [|fuel IH]; intros it Hidx Hfuel.
  { unfold turns_left in Hfuel. lia. }
  cbn [next_loop]. pose proof (next_body_spec it Hidx) as Hbody.
  destruct (next_body store it) as [[res|] it1]; cbn [fst snd] in Hbody.
  { by exists res, it1. }
  destruct Hbody as (Hsrc & Hidx1 & Hturns & Hrem).
  destruct (IH it1 Hidx1 ltac:(lia)) as (res & it' & Hloop & Hsrc' & Hidx' & Hres).
  exists res, it'. split; [done|].
  split; [congruence|]. split; [done|].
  destruct res as [|kv]; congruence.
Qed.

Lemma next_spec it :
  (-1 ≤ _sourceIndex it)%Z →
  ∃ res it', next store it = Some (res, it') ∧ turn_ok store it (Some res) it'.
Proof. intros Hidx. by apply next_loop_spec. Qed.

Lemma drain_spec fuel it :
  (-1 ≤ _sourceIndex it)%Z →
  length (first_wins (_encounteredKeys it) (remaining store it)) < fuel →
  drain store fuel it
  = Some (first_wins (_encounteredKeys it) (remaining store it)).
Proof.
  revert it. induction fuel as [|fuel IH]; intros it Hidx Hfuel; [lia|].
  cbn [drain].
  destruct (next_spec it Hidx) as (res & it' & -> & Hsrc & Hidx' & Hres).
  destruct res as [|kv].
  - by rewrite Hres.
  - rewrite Hres in Hfuel |- *. cbn in Hfuel.
    rewrite IH by (done || lia). done.
Qed.

(** Iterating a JoinedMap gives the entries of the sources in order,
    the first entry of each key only. *)
Lemma iterate_first_wins (jm : t) :
  iterate store jm = Some (first_wins ∅ (all_entries store (_sources jm))).
Proof.
  unfold iterate.
  rewrite drain_spec; unfold newIterator, remaining; cbn; [done|lia|].
  destruct jm as [sources subs]. cbn.
  pose proof (entry_count_all_entries sources) as Hsize.
  unfold entry_count in *. cbn in Hsize.
  rewrite Hsize.
  pose proof (sublist_length _ _ (first_wins_sublist ∅ (all_entries store sources))).
  change (drop (Z.to_nat (-1 + 1)) sources) with sources. lia.
Qed.

End facts.

(** The key-collision test: [{a: 1}], [{a: 2, b: 3}] iterate as
    [("a", 1); ("b", 3)]. *)
Example iterate_collision :
  iterate collision_store (constructor [0; 1]) = Some [("a", JNum 1); ("b", JNum 3)].
Proof. vm_compute. reflexivity. Qed.

End JoinedIteratorFacts.

(** ** FilteredList *)

Module FilteredListFacts.
Import FilteredList.

(** C3.  The code with the filter [(value, index) => index >= 1] over the
    source [[10]], subscribed, when the source inserts 20 at index 0: the
    new element is excluded, [onAdd] returns before [_reapplyFilter], and
    the mask is [[false; false]] although 10, now at index 1, passes the
    filter.  [length] is 0 and the iteration is empty, where one element,
    10, satisfies the filter. *)
Theorem excluded_add_leaves_stale_mask :
  let fl := onSubscribeFirst (P:=unit) (constructor [10] (Some all_but_first)) in
  ∃ fl',
    source_change (P:=unit) (Insert 0 20) fl = Normal (fl', []) ∧
    _source fl' = [20; 10] ∧
    _included fl' = Some [false; false] ∧
    get_length fl' = Normal 0 ∧
    iterate fl' = Some (Normal []) ∧
    satisfying all_but_first (_source fl') = [10].
Proof. eexists. vm_compute. repeat split; reflexivity. Qed.

(** A reset to a shorter source leaves the end of the mask in place: with
    a filter on values alone over [[2; 4; 6]], after the source resets to
    [[]], [length] is still 3. *)
Lemma reset_leaves_mask_tail :
  let fl := onSubscribeFirst (P:=unit) (constructor [2; 4; 6] (Some even_values)) in
  ∃ fl' events,
    source_change (P:=unit) (Reset []) fl = Normal (fl', events) ∧
    _source fl' = [] ∧
    get_length fl' = Normal 3 ∧
    iterate fl' = Some (Normal []) ∧
    satisfying even_values (_source fl') = [].
Proof. do 2 eexists. vm_compute. repeat split; reflexivity. Qed.

Section value_filter.
Context {V P : Type}.
Variable p : V → bool.
Implicit Types (fl : t V) (included : list bool) (rest : list V).

Lemma reapply_loop_included (silent aliased : bool) rest (i t : nat) included :
  length included = i + length rest →
  (reapply_loop (P:=P) (on_value p) silent aliased rest i t included).1
  = take i included ++ (p <$> rest).
Proof.
  revert i t included. induction rest as [|value rest IH]; intros i t included Hlen.
  { cbn in *. rewrite take_ge by lia. by rewrite app_nil_r. }
  cbn [reapply_loop]. cbn in Hlen.
  set (included' := js_write included i (on_value p value i)).
  set (t' := if on_value p value i then S t else t).
  specialize (IH (S i) t' included').
  destruct (reapply_loop (on_value p) silent aliased rest (S i) t' included')
    as [result later].
  cbn [fst] in *. rewrite IH.
  - subst included'. unfold js_write. rewrite decide_True by lia.
    rewrite (take_S_r _ i (p value)) by (apply list_lookup_insert_eq; lia).
    rewrite take_insert_ge by lia. by rewrite <- app_assoc.
  - subst included'. unfold js_write. rewrite decide_True by lia.
    rewrite length_insert. lia.
Qed.

Lemma reapplyFilter_tracks (silent : bool) items included (sub : bool) :
  length included = length items →
  (_reapplyFilter (P:=P) silent (mk items (Some (on_value p)) (Some included) sub)).1
  = mk items (Some (on_value p)) (Some (p <$> items)) sub.
Proof.
  intros Hlen. unfold _reapplyFilter. cbn [_filter _included _source _subscription].
  pose proof (reapply_loop_included silent true items 0 0 included Hlen) as Hloop.
  change (bool_decide (is_Some (Some included))) with true.
  destruct (reapply_loop (on_value p) silent true items 0 0 included) as [result events].
  cbn [fst] in *. by rewrite Hloop.
Qed.

Lemma onSubscribeFirst_tracks items :
  tracks p (onSubscribeFirst (P:=P) (constructor items (Some (on_value p)))).
Proof.
  unfold onSubscribeFirst, constructor, _reapplyFilter.
  cbn [_filter _included _source _subscription].
  pose proof (reapply_loop_included true false items 0 0
                (replicate (length items) false)) as Hloop.
  rewrite length_replicate in Hloop. specialize (Hloop eq_refl).
  change (bool_decide (is_Some None)) with false.
  destruct (reapply_loop (on_value p) true false items 0 0
              (replicate (length items) false)) as [result events].
  cbn [fst] in *. by rewrite Hloop.
Qed.

Lemma fmap_splice_insert items (idx : nat) value :
  splice_insert (p <$> items) idx (p value) = p <$> splice_insert items idx value.
Proof.
  unfold splice_insert. by rewrite fmap_app, fmap_cons, fmap_take, fmap_drop.
Qed.

Lemma fmap_splice_delete items (idx : nat) :
  splice_delete (p <$> items) idx = p <$> splice_delete items idx.
Proof.
  unfold splice_delete. by rewrite fmap_app, fmap_take, fmap_drop.
Qed.

(** One change of the source other than a reset keeps the mask in step
    with the source, and no handler throws. *)
Lemma source_change_tracks (c : SourceChange V P) fl :
  not_reset c → tracks p fl →
  ∃ fl' events, source_change c fl = Normal (fl', events) ∧ tracks p fl'.
Proof.
  intros Hc Htracks. pose proof Htracks as [Hfilter Hmask].
  destruct fl as [items filter included sub].
  cbn in Hfilter, Hmask. subst filter included.
  assert (Hsame : ∃ fl' events,
            Normal (mk items (Some (on_value p)) (Some (p <$> items)) sub,
                    @nil (Event V P)) = Normal (fl', events) ∧ tracks p fl')
    by (do 2 eexists; split; [reflexivity|exact Htracks]).
  destruct c as [idx value|idx|idx value params|fromIdx toIdx|items']; [| | | |done].
  - (* Insert *)
    cbn [source_change _source]. case_decide as Hidx; [|exact Hsame].
    unfold onAdd, with_source.
    cbn [_filter _included _source _subscription fmap option_fmap option_map].
    change (on_value p value idx) with (p value).
    rewrite fmap_splice_insert.
    destruct (p value); cbn [negb].
    + unfold onAdd_emit.
      pose proof (reapplyFilter_tracks false (splice_insert items idx value)
                    (p <$> splice_insert items idx value) sub) as Hre.
      rewrite length_fmap in Hre. specialize (Hre eq_refl).
      destruct (_reapplyFilter _ _) as [fl' events]. cbn [fst] in Hre. subst fl'.
      do 2 eexists. split; [done|]. by split.
    + do 2 eexists. split; [done|]. by split.
  - (* Remove *)
    cbn [source_change _source].
    destruct (items !! idx) as [value|] eqn:Hidx; [|exact Hsame].
    unfold onRemove, with_source.
    cbn [_filter _included _source _subscription fmap option_fmap option_map].
    rewrite fmap_splice_delete.
    pose proof (reapplyFilter_tracks false (splice_delete items idx)
                  (p <$> splice_delete items idx) sub) as Hre.
    rewrite length_fmap in Hre. specialize (Hre eq_refl).
    destruct (_reapplyFilter _ _) as [fl' events]. cbn [fst] in Hre. subst fl'.
    do 2 eexists. split; [done|]. by split.
  - (* Update *)
    cbn [source_change _source]. case_decide as Hidx; [|exact Hsame].
    unfold onUpdate, with_source. cbn [_filter _included _source _subscription].
    do 2 eexists. split; [done|]. split; [done|]. cbn [_included _source].
    unfold js_write. rewrite decide_True by (by rewrite length_fmap).
    by rewrite list_fmap_insert.
  - (* Move *)
    cbn [source_change _source].
    destruct (items !! fromIdx) as [value|] eqn:Hfrom; [|exact Hsame].
    case_decide as Hto; [|exact Hsame].
    unfold onMove, with_source. cbn [_filter _included _source _subscription].
    change (on_value p value toIdx) with (p value).
    rewrite fmap_splice_delete, fmap_splice_insert.
    pose proof (reapplyFilter_tracks false
                  (splice_insert (splice_delete items fromIdx) toIdx value)
                  (p <$> splice_insert (splice_delete items fromIdx) toIdx value) sub)
      as Hre.
    rewrite length_fmap in Hre. specialize (Hre eq_refl).
    destruct (_reapplyFilter _ _) as [fl' events]. cbn [fst] in Hre. subst fl'.
    do 2 eexists. split; [done|]. by split.
Qed.

Lemma source_changes_tracks (cs : list (SourceChange V P)) fl :
  Forall not_reset cs → tracks p fl →
  ∃ fl' events, source_changes cs fl = Normal (fl', events) ∧ tracks p fl'.
Proof.
  revert fl. induction cs as [|c cs IH]; intros fl Hcs Hfl; [by cbn; eauto|].
  apply Forall_cons in Hcs as [Hc Hcs].
  destruct (source_change_tracks c fl Hc Hfl) as (fl1 & events1 & Hstep & Hfl1).
  destruct (IH fl1 Hcs Hfl1) as (fl' & events & Hrest & Hfl').
  cbn [source_changes]. rewrite Hstep, Hrest. eauto.
Qed.

Lemma forEach_count_fmap rest (count i : nat) :
  forEach_count (p <$> rest) count
  = count + length (satisfying_from (on_value p) rest i).
Proof.
  revert count i. induction rest as [|value rest IH]; intros count i; cbn; [lia|].
  unfold on_value at 1. destruct (p value); cbn; rewrite (IH _ (S i)); lia.
Qed.

Lemma drain_fmap rest (fuel : nat) (seen : list bool) :
  length rest < fuel →
  drain fuel (mkIterator (Some (seen ++ (p <$> rest))) (length seen) rest)
  = Some (Normal (satisfying_from (on_value p) rest (length seen))).
Proof.
  revert fuel seen. induction rest as [|value rest IH]; intros fuel seen Hfuel.
  { destruct fuel; [cbn in Hfuel; lia|done]. }
  destruct fuel as [|fuel]; [lia|]. cbn in Hfuel.
  assert (Hread : js_read (seen ++ (p <$> value :: rest)) (length seen) = p value).
  { unfold js_read. rewrite fmap_cons. by rewrite list_lookup_middle. }
  assert (Hshift : seen ++ (p <$> value :: rest) = (seen ++ [p value]) ++ (p <$> rest)).
  { by rewrite <- app_assoc. }
  assert (Hlen : S (length seen) = length (seen ++ [p value])).
  { rewrite length_app. cbn. lia. }
  cbn [satisfying_from]. unfold on_value at 1.
  destruct (p value) eqn:Hp.
  - cbn [drain next fi_included _index _sourceIterator next_loop].
    rewrite Hread, Hshift, Hlen.
    by rewrite IH by lia.
  - specialize (IH (S fuel) (seen ++ [false]) ltac:(lia)).
    rewrite <- Hshift, <- Hlen in IH. rewrite <- IH.
    cbn [drain next fi_included _index _sourceIterator next_loop].
    by rewrite Hread.
Qed.

(** With a filter on values alone, subscribed, after any sequence of
    source changes without a reset: [length] is the number of source
    elements that pass the filter, and the iteration yields them in source
    order. *)
Lemma value_filter_length_and_iteration (items : list V)
    (cs : list (SourceChange V P)) :
  Forall not_reset cs →
  ∃ fl' events,
    source_changes cs (onSubscribeFirst (P:=P) (constructor items (Some (on_value p))))
    = Normal (fl', events) ∧
    get_length fl' = Normal (length (satisfying (on_value p) (_source fl'))) ∧
    iterate fl' = Some (Normal (satisfying (on_value p) (_source fl'))).
Proof.
  intros Hcs.
  destruct (source_changes_tracks cs _ Hcs (onSubscribeFirst_tracks items))
    as (fl' & events & Hrun & Hfilter & Hmask).
  exists fl', events. split; [done|].
  unfold get_length, iterate, newIterator, satisfying. rewrite Hmask. split.
  - by rewrite (forEach_count_fmap _ 0 0).
  - apply (drain_fmap (_source fl') _ []). lia.
Qed.
End value_filter.

Section unfiltered.
Context {V P : Type}.
Implicit Types (source : list V) (value : V) (params : option P).

(** C9.  The code without a filter, subscribed: the mask stays
    unallocated, and [length] reads [null.forEach] and throws for every
    source; iterating throws at the first element of a source that is not
    empty. *)
Theorem unfiltered_length_throws source value :
  let fl := onSubscribeFirst (P:=P) (constructor source None) in
  let fl1 := onSubscribeFirst (P:=P) (constructor (value :: source) None) in
  _included fl = None ∧
  get_length fl = TypeError ∧
  iterate fl1 = Some TypeError.
Proof. done. Qed.

(** Without a filter every change of the source comes out as the one
    event the source emitted, at the source's indices, and the mask
    stays unallocated. *)
Lemma unfiltered_events_pass source (sub : bool) :
  let fl items := mk items None None sub in
  (∀ idx value, idx ≤ length source →
     source_change (P:=P) (Insert idx value) (fl source)
     = Normal (fl (splice_insert source idx value), [LAdd idx value])) ∧
  (∀ idx value, source !! idx = Some value →
     source_change (P:=P) (Remove idx) (fl source)
     = Normal (fl (splice_delete source idx), [LRemove idx value])) ∧
  (∀ idx value params, idx < length source →
     source_change (Update idx value params) (fl source)
     = Normal (fl (<[idx := value]> source), [LUpdate idx value params])) ∧
  (∀ fromIdx toIdx value, source !! fromIdx = Some value → toIdx < length source →
     source_change (P:=P) (Move fromIdx toIdx) (fl source)
     = Normal (fl (splice_insert (splice_delete source fromIdx) toIdx value),
               [LMove fromIdx toIdx value])) ∧
  (∀ items, source_change (P:=P) (Reset items) (fl source)
            = Normal (fl items, [LReset])).
Proof.
  cbn zeta. split; [|split; [|split; [|split]]].
  - intros idx value Hidx. cbn. by rewrite decide_True.
  - intros idx value Hidx. cbn. by rewrite Hidx.
  - intros idx value params Hidx. cbn. by rewrite decide_True.
  - intros fromIdx toIdx value Hfrom Hto. cbn. rewrite Hfrom.
    by rewrite decide_True.
  - done.
Qed.
End unfiltered.

Example unfiltered_length_throws_example :
  get_length (onSubscribeFirst (P:=unit) (constructor [1; 2; 3] None)) = TypeError ∧
  iterate (onSubscribeFirst (P:=unit) (constructor [1; 2; 3] None)) = Some TypeError.
Proof. done. Qed.

End FilteredListFacts.

(** ** ApplyMap *)

Module ApplyMapFacts.
Import ApplyMap.

Section facts.
Context {K V P : Type}.



End facts.



End ApplyMapFacts.

(** ** Events that arrive before an operator is set up *)

Module ReentrancyFacts.

Section facts.
Context {K V P : Type} `{Countable K}.

(** C4, as the code has it.  An update that reaches a JoinedMap whose
    [_subscriptions] is null, a MappedList whose [_mappedValues] is null
    or a MappedMap whose cache is empty emits nothing and leaves the
    operator as it was. *)
Theorem update_before_initialization_discarded :
  (∀ (store : JoinedMap.source → list (K * V)) (sources : list JoinedMap.source)
     (src : JoinedMap.source) (key : K) (value : V) (params : P),
     JoinedMap.onUpdate store (JoinedMap.mk sources None) src key value params = []) ∧
  (∀ (F T : Type) (runUpdate : MappedList.t F T → nat → F → P →
                               MappedList.t F T * list (ListEvent T P))
     (items : list F) (unsub : bool) (index : nat) (item : F) (params : P),
     MappedList.onUpdate runUpdate (MappedList.mk items None unsub) index item params
     = (MappedList.mk items None unsub, [])) ∧
  (∀ (TV : Type) (updater : option (TV → P → V → TV)) (entries : list (K * V))
     (sub : bool) (key : K) (value : V) (params : P),
     MappedMap.onUpdate updater (MappedMap.mk entries ∅ sub) key value params
     = (MappedMap.mk entries ∅ sub, [])).
Proof.
  split; [done|]. split; [done|].
  intros. unfold MappedMap.onUpdate. cbn. by rewrite lookup_empty.
Qed.
End facts.

(** C4, as stated, at concrete inputs.  A JoinedMap whose
    [_subscriptions] is null emits the add it receives; a FilteredList
    with a filter and no mask yet emits the update it receives; a
    MappedMap with an empty cache stores and emits the add it receives. *)
Lemma events_before_initialization_not_discarded :
  (JoinedMap._subscriptions (JoinedMap.constructor [0]) = None ∧
   JoinedMap.onAdd (P:=unit) JoinedMap.collision_store (JoinedMap.constructor [0])
     0 "a" (JNum 1)
     = [MAdd "a" (JNum 1)]) ∧
  (let fl := FilteredList.constructor [1; 2] (Some (λ v _, Nat.even v)) in
   FilteredList._included fl = None ∧
   FilteredList.onUpdate (P:=unit) fl 0 1 None
     = FilteredList.Normal (fl, [LUpdate 0 1 None])) ∧
  (let mm := MappedMap.mk (K:=string) (FV:=nat) (TV:=nat) [] ∅ false in
   MappedMap.onAdd (P:=unit) S mm "a" 1
     = (MappedMap.mk [] {["a" := 2]} false, [MAdd "a" 2])).
Proof.
  split; [split; [done|vm_compute; done]|].
  split; [split; done|].
  cbn. unfold MappedMap.onAdd. cbn. by rewrite insert_empty.
Qed.

End ReentrancyFacts.

(** * More of the code *)

(** ** BaseObservable: the handler set and the hooks *)

Module BaseObservableLaws.
Import BaseObservable.

Lemma handlers_after_subscribe (h : handler) (c : Collection) :
  _handlers (subscribe h c).1 = {[h]} ∪ _handlers c.
Proof. unfold subscribe. cbn. by case_decide. Qed.

Lemma handlers_after_unsubscribe (h : handler) (c : Collection) :
  _handlers (unsubscribe (Some h) c) = _handlers c ∖ {[h]}.
Proof. unfold unsubscribe. cbn. by case_decide. Qed.

(** Subscribing a handler that is not subscribed yet and then calling the
    closure [subscribe] returned gives back the handler set as it was;
    in between the handler is in the set and [hasSubscriptions] is true. *)
Theorem subscribe_then_unsubscribe_restores (h : handler) (c : Collection) :
  h ∉ _handlers c →
  h ∈ _handlers (subscribe h c).1 ∧
  hasSubscriptions (subscribe h c).1 = true ∧
  _handlers ((subscribe h c).2 (subscribe h c).1) = _handlers c.
Proof.
  intros Hnew. split; [|split].
  - rewrite handlers_after_subscribe. set_solver.
  - unfold hasSubscriptions. apply bool_decide_eq_true.
    rewrite handlers_after_subscribe. intros Hsize.
    apply size_empty_iff in Hsize. set_solver.
  - change ((subscribe h c).2) with (unsubscribe (Some h)).
    rewrite handlers_after_unsubscribe, handlers_after_subscribe. set_solver.
Qed.

Lemma subscribe_then_unsubscribe_restores_witness :
  3 ∈ _handlers (subscribe 3 constructor).1 ∧
  hasSubscriptions (subscribe 3 constructor).1 = true ∧
  _handlers ((subscribe 3 constructor).2 (subscribe 3 constructor).1)
  = _handlers constructor.
Proof. apply (subscribe_then_unsubscribe_restores 3 constructor). set_solver. Defined.

(** For a handler that is not subscribed yet, [subscribe] runs
    [onSubscribeFirst] once when no handler was subscribed and not at all
    otherwise, and never runs [onUnsubscribeLast]. *)
Theorem subscribe_new_handler_hook (h : handler) (c : Collection) :
  h ∉ _handlers c →
  firstSubscribeCalls (subscribe h c).1
  = firstSubscribeCalls c + (if decide (_handlers c = ∅) then 1 else 0) ∧
  firstUnsubscribeCalls (subscribe h c).1 = firstUnsubscribeCalls c.
Proof.
  intros Hnew. unfold subscribe. cbn [fst with_handlers _handlers].
  assert (Hsize : size ({[h]} ∪ _handlers c) = S (size (_handlers c))).
  { rewrite size_union by set_solver. by rewrite size_singleton. }
  rewrite Hsize.
  destruct (decide (_handlers c = ∅)) as [Hempty|Hsome].
  - rewrite Hempty, size_empty. rewrite decide_True by done. cbn. lia.
  - rewrite decide_False.
    + cbn. lia.
    + intros [= Hzero]. by apply size_empty_iff, leibniz_equiv in Hzero.
Qed.

Lemma subscribe_new_handler_hook_witness :
  firstSubscribeCalls (subscribe 2 (subscribe 1 constructor).1).1
  = firstSubscribeCalls (subscribe 1 constructor).1
    + (if decide (_handlers (subscribe 1 constructor).1 = ∅) then 1 else 0) ∧
  firstUnsubscribeCalls (subscribe 2 (subscribe 1 constructor).1).1
  = firstUnsubscribeCalls (subscribe 1 constructor).1.
Proof.
  apply (subscribe_new_handler_hook 2 (subscribe 1 constructor).1).
  rewrite handlers_after_subscribe. cbn. set_solver.
Defined.

(** For a handler that is subscribed, [unsubscribe] runs
    [onUnsubscribeLast] once when it was the only handler and not at all
    otherwise, and never runs [onSubscribeFirst]. *)
Theorem unsubscribe_subscribed_handler_hook (h : handler) (c : Collection) :
  h ∈ _handlers c →
  firstUnsubscribeCalls (unsubscribe (Some h) c)
  = firstUnsubscribeCalls c + (if decide (_handlers c = {[h]}) then 1 else 0) ∧
  firstSubscribeCalls (unsubscribe (Some h) c) = firstSubscribeCalls c.
Proof.
  intros Hin. unfold unsubscribe. cbn [with_handlers _handlers].
  destruct (decide (_handlers c = {[h]})) as [Honly|Hmore].
  - rewrite Honly.
    replace (({[h]} : gset handler) ∖ {[h]}) with (∅ : gset handler) by set_solver.
    rewrite size_empty, decide_True by done. cbn. lia.
  - rewrite decide_False.
    + cbn. lia.
    + intros Hzero. apply size_empty_iff in Hzero. apply Hmore.
      apply set_eq. intros x. rewrite elem_of_singleton. split.
      * intros Hx. destruct (decide (x = h)) as [|Hne]; [done|].
        exfalso. apply (not_elem_of_empty (C:=gset handler) x).
        rewrite <- Hzero. apply elem_of_difference. split; [done|].
        by rewrite elem_of_singleton.
      * by intros ->.
Qed.

Lemma unsubscribe_subscribed_handler_hook_witness :
  firstUnsubscribeCalls (unsubscribe (Some 1) (subscribe 1 constructor).1)
  = firstUnsubscribeCalls (subscribe 1 constructor).1
    + (if decide (_handlers (subscribe 1 constructor).1 = {[1]}) then 1 else 0) ∧
  firstSubscribeCalls (unsubscribe (Some 1) (subscribe 1 constructor).1)
  = firstSubscribeCalls (subscribe 1 constructor).1.
Proof.
  apply (unsubscribe_subscribed_handler_hook 1 (subscribe 1 constructor).1).
  rewrite handlers_after_subscribe. set_solver.
Defined.

Lemma unsubscribeAll_some (c : Collection) :
  size (_handlers c) ≠ 0 → unsubscribeAll c = onUnsubscribeLast (with_handlers ∅ c).
Proof. intros Hsome. unfold unsubscribeAll. by rewrite decide_True. Qed.

Lemma unsubscribeAll_none (c : Collection) :
  size (_handlers c) = 0 → unsubscribeAll c = c.
Proof.
  intros Hnone. unfold unsubscribeAll. rewrite decide_False; [done|].
  intros Hne. by apply Hne.
Qed.

(** [unsubscribeAll] leaves no handler, runs [onUnsubscribeLast] once when
    there was a handler and not at all otherwise, and a second
    [unsubscribeAll] changes nothing. *)
Theorem unsubscribeAll_once (c : Collection) :
  _handlers (unsubscribeAll c) = ∅ ∧
  hasSubscriptions (unsubscribeAll c) = false ∧
  firstUnsubscribeCalls (unsubscribeAll c)
  = firstUnsubscribeCalls c + (if hasSubscriptions c then 1 else 0) ∧
  firstSubscribeCalls (unsubscribeAll c) = firstSubscribeCalls c ∧
  unsubscribeAll (unsubscribeAll c) = unsubscribeAll c.
Proof.
  assert (Hempty : _handlers (unsubscribeAll c) = ∅).
  { destruct (decide (size (_handlers c) = 0)) as [Hnone|Hsome].
    - rewrite unsubscribeAll_none by done.
      by apply leibniz_equiv, size_empty_iff.
    - by rewrite unsubscribeAll_some. }
  assert (Hsize : size (_handlers (unsubscribeAll c)) = 0).
  { rewrite Hempty. apply size_empty. }
  split; [done|]. split.
  { unfold hasSubscriptions. apply bool_decide_eq_false. intros Hne. by apply Hne. }
  split; [|split].
  - unfold hasSubscriptions.
    destruct (decide (size (_handlers c) = 0)) as [Hnone|Hsome].
    + rewrite unsubscribeAll_none by done.
      rewrite bool_decide_eq_false_2; [lia|]. intros Hne. by apply Hne.
    + rewrite unsubscribeAll_some by done. by rewrite bool_decide_eq_true_2.
  - destruct (decide (size (_handlers c) = 0)) as [Hnone|Hsome].
    + by rewrite unsubscribeAll_none.
    + by rewrite unsubscribeAll_some.
  - by apply unsubscribeAll_none.
Qed.

End BaseObservableLaws.

(** ** sortedIndex on arrays that need not be ordered *)

Module SortedIndexLaws.
Import Utils.

Section laws.
Context {T : Type} (comparator : T → T → Z).
Variables (array : list T) (value : T).
Hypothesis Hlen : (Z.of_nat (length array) ≤ 2 ^ 31)%Z.

Lemma midpoint (low high : Z) :
  (0 ≤ low < high)%Z → (high ≤ Z.of_nat (length array))%Z →
  ushr1 (low + high) = ((low + high) / 2)%Z ∧
  (low ≤ (low + high) / 2 < high)%Z ∧
  is_Some (array !! Z.to_nat ((low + high) / 2)).
Proof using Hlen.
  intros Hlow Hhigh.
  assert (low ≤ (low + high) / 2 < high)%Z as Hmid.
  { split; [apply Z.div_le_lower_bound|apply Z.div_lt_upper_bound]; lia. }
  split; [|split; [done|]].
  - unfold ushr1. rewrite Z.mod_small by lia. by rewrite Z.shiftr_div_pow2.
  - apply lookup_lt_is_Some. lia.
Qed.

Lemma sortedIndex_loop_in_range (fuel : nat) (low high : Z) :
  (0 ≤ low ≤ high)%Z → (high ≤ Z.of_nat (length array))%Z →
  (high - low < Z.of_nat fuel)%Z →
  ∃ r, sortedIndex_loop comparator fuel array value low high = Some r ∧
       (low ≤ r ≤ high)%Z.
Proof using Hlen.
  revert low high. induction fuel as [|fuel IH]; intros low high Hlow Hhigh Hfuel; [lia|].
  cbn [sortedIndex_loop]. destruct (low <? high)%Z eqn:Hlt.
  2:{ exists high. split; [done|lia]. }
  apply Z.ltb_lt in Hlt.
  destruct (midpoint low high ltac:(lia) Hhigh) as (-> & Hmid & [x ->]).
  set (mid := ((low + high) / 2)%Z) in *.
  destruct (comparator value x >? 0)%Z.
  { destruct (IH (mid + 1)%Z high) as (r & -> & Hr); try lia. exists r. split; [done|lia]. }
  destruct (comparator value x <? 0)%Z.
  { destruct (IH low mid) as (r & -> & Hr); try lia. exists r. split; [done|lia]. }
  destruct (IH mid mid) as (r & -> & Hr); try lia. exists r. split; [done|lia].
Qed.

(** For every comparator and every array of at most 2^31 elements, ordered
    or not, [sortedIndex] ends, never reads outside the array, and returns
    an index between 0 and the length of the array. *)
Theorem sortedIndex_in_range :
  ∃ r : Z, sortedIndex comparator array value = Some r ∧
           (0 ≤ r ≤ Z.of_nat (length array))%Z.
Proof using Hlen.
  unfold sortedIndex. apply sortedIndex_loop_in_range; lia.
Qed.

Lemma sortedIndex_loop_all_greater (fuel : nat) (low high : Z) :
  (∀ x, x ∈ array → (0 < comparator value x)%Z) →
  (0 ≤ low ≤ high)%Z → (high ≤ Z.of_nat (length array))%Z →
  (high - low < Z.of_nat fuel)%Z →
  sortedIndex_loop comparator fuel array value low high = Some high.
Proof using Hlen.
  intros Hall. revert low.
  induction fuel as [|fuel IH]; intros low Hlow Hhigh Hfuel; [lia|].
  cbn [sortedIndex_loop]. destruct (low <? high)%Z eqn:Hlt; [|done].
  apply Z.ltb_lt in Hlt.
  destruct (midpoint low high ltac:(lia) Hhigh) as (-> & Hmid & [x Hx]).
  rewrite Hx. apply list_elem_of_lookup_2, Hall in Hx.
  apply Z.gtb_lt in Hx. rewrite Hx. apply IH; lia.
Qed.

Lemma sortedIndex_loop_all_smaller (fuel : nat) (low high : Z) :
  (∀ x, x ∈ array → (comparator value x < 0)%Z) →
  (0 ≤ low ≤ high)%Z → (high ≤ Z.of_nat (length array))%Z →
  (high - low < Z.of_nat fuel)%Z →
  sortedIndex_loop comparator fuel array value low high = Some low.
Proof using Hlen.
  intros Hall. revert high.
  induction fuel as [|fuel IH]; intros high Hlow Hhigh Hfuel; [lia|].
  cbn [sortedIndex_loop]. destruct (low <? high)%Z eqn:Hlt.
  2:{ apply Z.ltb_ge in Hlt. f_equal. lia. }
  apply Z.ltb_lt in Hlt.
  destruct (midpoint low high ltac:(lia) Hhigh) as (-> & Hmid & [x Hx]).
  rewrite Hx. apply list_elem_of_lookup_2, Hall in Hx.
  assert ((comparator value x >? 0)%Z = false) as -> by (rewrite Z.gtb_ltb; by apply Z.ltb_ge; lia).
  apply Z.ltb_lt in Hx. rewrite Hx. apply IH; lia.
Qed.

(** On an array of at most 2^31 elements, ordered or not: a value that
    compares greater than every element gets the index after the last
    element, and a value that compares smaller than every element gets
    index 0. *)
Theorem sortedIndex_extremes :
  ((∀ x, x ∈ array → (0 < comparator value x)%Z) →
   sortedIndex comparator array value = Some (Z.of_nat (length array))) ∧
  ((∀ x, x ∈ array → (comparator value x < 0)%Z) →
   sortedIndex comparator array value = Some 0%Z).
Proof using Hlen.
  unfold sortedIndex. split; intros Hall.
  - apply sortedIndex_loop_all_greater; (done || lia).
  - apply sortedIndex_loop_all_smaller; (done || lia).
Qed.
End laws.

Lemma sortedIndex_in_range_witness :
  ∃ r : Z, sortedIndex (λ a b, (b - a)%Z) [5; 1; 4; 1]%Z 3%Z = Some r ∧
           (0 ≤ r ≤ Z.of_nat (length [5; 1; 4; 1]%Z))%Z.
Proof. apply (sortedIndex_in_range (λ a b, (b - a)%Z)). simpl. lia. Defined.

Lemma sortedIndex_extremes_witness :
  ((∀ x, x ∈ [5; 1; 4]%Z → (0 < 9 - x)%Z) →
   sortedIndex Z.sub [5; 1; 4]%Z 9%Z = Some (Z.of_nat (length [5; 1; 4]%Z))) ∧
  ((∀ x, x ∈ [5; 1; 4]%Z → (9 - x < 0)%Z) →
   sortedIndex Z.sub [5; 1; 4]%Z 9%Z = Some 0%Z).
Proof. apply (sortedIndex_extremes Z.sub). simpl. lia. Defined.

End SortedIndexLaws.

(** ** JoinedMap: occlusion, size and lookup *)

Module JoinedMapLaws.
Import JoinedMap.

Section laws.
Context {K V P : Type} `{Countable K}.
Variable store : source → list (K * V).
Implicit Types (jm : t) (src : source) (key : K) (value : V).

Lemma occluded_loop_true (earlier : list source) key (n : nat) (s : source) value :
  earlier !! n = Some s → map_get (store s) key = Some value →
  occluded_loop store earlier key = true.
Proof.
  revert n. induction earlier as [|x rest IH]; intros n Hn Hs; [done|].
  cbn [occluded_loop]. destruct n as [|n]; cbn in Hn.
  - injection Hn as ->. by rewrite Hs.
  - destruct (map_get (store x) key); [done|]. by apply (IH n).
Qed.

Lemma occludedValue_loop_none (later : list source) key :
  (∀ n s, later !! n = Some s → map_get (store s) key = None) →
  occludedValue_loop store later key = None.
Proof.
  induction later as [|x rest IH]; intros Hnone; [done|].
  cbn [occludedValue_loop]. rewrite (Hnone 0 x) by done.
  apply IH. intros n s Hn. by apply (Hnone (S n)).
Qed.

Lemma first_position_index (l : list source) src (i : nat) :
  l !! i = Some src → (∀ n, n < i → l !! n ≠ Some src) →
  indexOf l src = Z.of_nat i.
Proof.
  intros Hi Hfirst. unfold indexOf.
  rewrite (JoinedMapFacts.indexOf_from_first l src 0 i) by done. lia.
Qed.

(** A source after one that holds the key is silent: whatever it adds,
    removes or updates for that key, the JoinedMap emits nothing. *)
Theorem occluded_source_is_silent jm src key value (params : P)
    (i n : nat) (s : source) (held : V) :
  _sources jm !! i = Some src →
  (∀ m, m < i → _sources jm !! m ≠ Some src) →
  n < i → _sources jm !! n = Some s → map_get (store s) key = Some held →
  onAdd (P:=P) store jm src key value = [] ∧
  onRemove (P:=P) store jm src key value = [] ∧
  onUpdate store jm src key value params = [].
Proof.
  intros Hi Hfirst Hn Hs Hheld.
  assert (Hocc : _isKeyAtSourceOccluded store jm src key = true).
  { unfold _isKeyAtSourceOccluded.
    rewrite (first_position_index _ _ i) by done. rewrite Nat2Z.id.
    apply (occluded_loop_true _ _ n s held); [|done].
    by rewrite lookup_take_lt. }
  unfold onAdd, onRemove, onUpdate. rewrite Hocc. cbn.
  by destruct (_subscriptions jm).
Qed.

(** When no other source holds the key, an add or a remove at a source
    comes out as that one event. *)
Theorem sole_holder_single_event jm src key value (i : nat) :
  _sources jm !! i = Some src →
  (∀ m, m < i → _sources jm !! m ≠ Some src) →
  (∀ n s, n ≠ i → _sources jm !! n = Some s → map_get (store s) key = None) →
  onAdd (P:=P) store jm src key value = [MAdd key value] ∧
  onRemove (P:=P) store jm src key value = [MRemove key value].
Proof.
  intros Hi Hfirst Hothers.
  assert (Hidx : indexOf (_sources jm) src = Z.of_nat i)
    by by apply first_position_index.
  assert (Hocc : _isKeyAtSourceOccluded store jm src key = false).
  { unfold _isKeyAtSourceOccluded. rewrite Hidx, Nat2Z.id.
    apply JoinedMapFacts.occluded_loop_false. intros n s Hn.
    apply lookup_take_Some in Hn as [Hn Hlt]. apply (Hothers n); [lia|done]. }
  assert (Hval : _getValueFromOccludedSources store jm src key = None).
  { unfold _getValueFromOccludedSources. rewrite Hidx.
    replace (Z.to_nat (Z.of_nat i + 1)) with (S i) by lia.
    apply occludedValue_loop_none. intros n s Hn. rewrite lookup_drop in Hn.
    apply (Hothers (S i + n)); [lia|done]. }
  unfold onAdd, onRemove. by rewrite Hocc, Hval.
Qed.

(** Once subscribed, an update at a source that no earlier source
    occludes for the key is forwarded as it is, whatever later sources
    hold. *)
Theorem visible_update_forwarded jm src key value (params : P) (i : nat)
    (handlers : list source) :
  _subscriptions jm = Some handlers →
  _sources jm !! i = Some src →
  (∀ m, m < i → _sources jm !! m ≠ Some src) →
  (∀ n s, n < i → _sources jm !! n = Some s → map_get (store s) key = None) →
  onUpdate store jm src key value params = [MUpdate key value params].
Proof.
  intros Hsubs Hi Hfirst Hearlier.
  assert (Hocc : _isKeyAtSourceOccluded store jm src key = false).
  { unfold _isKeyAtSourceOccluded.
    rewrite (first_position_index _ _ i) by done. rewrite Nat2Z.id.
    apply JoinedMapFacts.occluded_loop_false. intros n s Hn.
    apply lookup_take_Some in Hn as [Hn Hlt]. by apply (Hearlier n). }
  unfold onUpdate. by rewrite Hsubs, Hocc.
Qed.

Lemma first_wins_all_new (seen : gset K) (l : list (K * V)) :
  NoDup l.*1 → (∀ key, key ∈ l.*1 → key ∉ seen) → first_wins seen l = l.
Proof.
  revert seen. induction l as [|[k v] rest IH]; intros seen Hnodup Hnew; [done|].
  cbn in Hnodup. apply NoDup_cons in Hnodup as [Hk Hnodup].
  cbn [first_wins]. rewrite decide_False by (apply Hnew; cbn; set_solver).
  f_equal. apply IH; [done|].
  intros key Hkey. specialize (Hnew key). cbn in Hnew. set_solver.
Qed.

Lemma size_from (size_of : source → nat) (sources : list source) (n : nat) :
  foldl (λ sum s, sum + size_of s) n sources = n + sum_list (size_of <$> sources).
Proof.
  revert n. induction sources as [|s rest IH]; intros n; cbn; [lia|].
  rewrite IH. lia.
Qed.

Lemma length_all_entries (sources : list source) :
  length (all_entries store sources) = sum_list ((λ s, length (store s)) <$> sources).
Proof.
  induction sources as [|s rest IH]; [done|].
  rewrite JoinedIteratorFacts.all_entries_cons, length_app, IH. done.
Qed.

Lemma sum_list_le (f g : source → nat) (sources : list source) :
  (∀ s, s ∈ sources → f s ≤ g s) →
  sum_list (f <$> sources) ≤ sum_list (g <$> sources).
Proof.
  induction sources as [|s rest IH]; intros Hle; cbn; [lia|].
  pose proof (Hle s ltac:(set_solver)). 
  pose proof (IH ltac:(intros s' Hs'; apply Hle; set_solver)). lia.
Qed.

(** [size] adds up what the sources report as their size.  When no
    source reports less than the number of entries it iterates, an
    iteration never yields more entries than [size]; when moreover every
    source reports exactly that number and no key occurs twice over all
    sources, the iteration is the plain concatenation of the sources and
    yields exactly [size] entries. *)
Theorem iteration_within_size (size_of : source → nat) jm :
  (∀ s, s ∈ _sources jm → length (store s) ≤ size_of s) →
  ∃ result,
    iterate store jm = Some result ∧
    length result ≤ size size_of jm ∧
    ((∀ s, s ∈ _sources jm → size_of s = length (store s)) →
     NoDup (all_entries store (_sources jm)).*1 →
     result = all_entries store (_sources jm) ∧
     length result = size size_of jm).
Proof.
  intros Hreport.
  exists (first_wins ∅ (all_entries store (_sources jm))).
  split; [apply JoinedIteratorFacts.iterate_first_wins|].
  unfold size. rewrite size_from. cbn [Nat.add]. split.
  - etrans; [apply sublist_length, JoinedIteratorFacts.first_wins_sublist|].
    rewrite length_all_entries. by apply sum_list_le.
  - intros Hexact Hnodup. rewrite first_wins_all_new; [|done|set_solver].
    split; [done|]. rewrite length_all_entries.
    assert (Hle : ∀ f g : source → nat,
              (∀ s, s ∈ _sources jm → f s = g s) →
              sum_list (f <$> _sources jm) = sum_list (g <$> _sources jm)).
    { intros f g Hfg. apply Nat.le_antisymm; apply sum_list_le;
        intros s Hs; rewrite (Hfg s Hs); done. }
    apply Hle. intros s Hs. by rewrite (Hexact s Hs).
Qed.

Lemma occludedValue_loop_all_entries (sources : list source) key :
  occludedValue_loop store sources key = map_get (all_entries store sources) key.
Proof.
  induction sources as [|s rest IH]; [done|].
  rewrite JoinedIteratorFacts.all_entries_cons, JoinedIteratorFacts.map_get_app.
  cbn [occludedValue_loop]. by destruct (map_get (store s) key).
Qed.

(** When every value the sources hold for a key is truthy, [get] and the
    iteration agree on that key: [get] returns a value exactly when the
    iteration yields the key with that value. *)
Theorem get_agrees_with_iteration (truthy : V → bool) jm key value :
  (∀ s held, s ∈ _sources jm → map_get (store s) key = Some held →
             truthy held = true) →
  ∃ result,
    iterate store jm = Some result ∧
    (get truthy store jm key = Some value ↔ (key, value) ∈ result).
Proof.
  intros Htruthy.
  exists (first_wins ∅ (all_entries store (_sources jm))).
  split; [apply JoinedIteratorFacts.iterate_first_wins|].
  rewrite (JoinedMapFacts.get_first_source_when_truthy store truthy jm key Htruthy).
  rewrite occludedValue_loop_all_entries, JoinedIteratorFacts.first_wins_elem_of.
  set_solver.
Qed.

(** [get] never makes up a value: what it returns is truthy and is held
    for the key by one of the sources; for a key no source holds it
    returns undefined. *)
Theorem get_returns_held_value (truthy : V → bool) jm key :
  (∀ value, get truthy store jm key = Some value →
     truthy value = true ∧
     ∃ i s, _sources jm !! i = Some s ∧ map_get (store s) key = Some value) ∧
  ((∀ s, s ∈ _sources jm → map_get (store s) key = None) →
   get truthy store jm key = None).
Proof.
  unfold get. induction (_sources jm) as [|s rest [IHsome IHnone]].
  { split; [done|]. by intros _. }
  split.
  - intros value. cbn [get_loop].
    destruct (map_get (store s) key) as [held|] eqn:Hs.
    + destruct (truthy held) eqn:Hheld.
      * intros [= ->]. split; [done|]. by exists 0, s.
      * intros Hget. destruct (IHsome value Hget) as (Ht & i & s' & Hi & Hs').
        split; [done|]. by exists (S i), s'.
    + intros Hget. destruct (IHsome value Hget) as (Ht & i & s' & Hi & Hs').
      split; [done|]. by exists (S i), s'.
  - intros Hnone. cbn [get_loop]. rewrite (Hnone s) by apply list_elem_of_here.
    apply IHnone. intros s' Hs'. apply Hnone. by apply list_elem_of_further.
Qed.

(** *** The iterator after it is done *)

Lemma next_loop_done (fuel : nat) (it it' : JoinedIterator (K:=K) (V:=V)) :
  (-1 ≤ _sourceIndex it)%Z →
  next_loop store fuel it = Some (Done, it') →
  _currentIterator it' = None ∧
  (Z.of_nat (length (it_sources it')) ≤ _sourceIndex it')%Z.
Proof.
  revert it. induction fuel as [|fuel IH]; intros it Hidx Hnext; [done|].
  cbn [next_loop] in Hnext.
  pose proof (JoinedIteratorFacts.next_body_spec store it Hidx) as Hturn.
  destruct (next_body store it) as [[res|] it1] eqn:Hbody; cbn [fst snd] in Hturn.
  2:{ destruct Hturn as (_ & Hidx1 & _). by apply (IH it1). }
  injection Hnext as -> ->.
  unfold next_body in Hbody.
  destruct (_currentIterator it) as [cur|] eqn:Hcur.
  { exfalso. unfold next_source_step in Hbody.
    destruct cur as [|[key value] rest]; [done|]. by case_decide. }
  cbv zeta in Hbody. cbn [it_sources] in Hbody.
  destruct (Z.of_nat (length (it_sources it)) <=? _sourceIndex it + 1)%Z eqn:Hend.
  - injection Hbody as <-. cbn. split; [done|]. by apply Z.leb_le.
  - exfalso. apply Z.leb_gt in Hend.
    destruct (it_sources it !! Z.to_nat (_sourceIndex it + 1)) as [s|] eqn:Hs.
    + unfold next_source_step in Hbody.
      destruct (store s) as [|[key value] rest]; [done|]. by case_decide.
    + apply lookup_ge_None in Hs. lia.
Qed.

(** An iterator that has returned done returns done again on every
    later call. *)
Theorem done_iterator_stays_done (it it' : JoinedIterator (K:=K) (V:=V)) :
  (-1 ≤ _sourceIndex it)%Z →
  next store it = Some (Done, it') →
  ∃ it'', next store it' = Some (Done, it'') ∧
          _currentIterator it'' = None ∧
          (Z.of_nat (length (it_sources it'')) ≤ _sourceIndex it'')%Z.
Proof.
  intros Hidx Hnext.
  destruct (next_loop_done _ it it' Hidx Hnext) as [Hcur Hend].
  unfold next, turns_left. rewrite Hcur. cbn [iterator_turns].
  rewrite Nat.add_comm. cbn [Nat.add next_loop]. unfold next_body.
  rewrite Hcur. cbv zeta. cbn [it_sources].
  assert ((Z.of_nat (length (it_sources it')) <=? _sourceIndex it' + 1)%Z = true)
    as -> by (apply Z.leb_le; lia).
  eexists. split; [done|]. cbn. split; [done|lia].
Qed.
End laws.

Lemma iteration_within_size_witness :
  ∃ result,
    iterate nested_store (constructor [0; 1]) = Some result ∧
    length result ≤ size nested_size (constructor [0; 1]) ∧
    ((∀ s, s ∈ _sources (constructor [0; 1]) →
           nested_size s = length (nested_store s)) →
     NoDup (all_entries nested_store (_sources (constructor [0; 1]))).*1 →
     result = all_entries nested_store (_sources (constructor [0; 1])) ∧
     length result = size nested_size (constructor [0; 1])).
Proof.
  apply (iteration_within_size nested_store nested_size (constructor [0; 1])).
  intros s Hs. cbn in Hs.
  apply elem_of_cons in Hs as [->|Hs]; [vm_compute; lia|].
  apply elem_of_cons in Hs as [->|Hs]; [vm_compute; lia|].
  by apply elem_of_nil in Hs.
Defined.

(** The size of a JoinedMap over a JoinedMap counts the occluded entry of
    the inner one: [size] is 3 while the iteration yields two entries,
    with no key twice. *)
Lemma size_counts_occluded_entries :
  iterate nested_store (constructor [0; 1])
  = Some [("a", JNum 1); ("b", JNum 3)] ∧
  size nested_size (constructor [0; 1]) = 3.
Proof. split; vm_compute; reflexivity. Qed.

Lemma occluded_source_is_silent_witness :
  onAdd (P:=unit) collision_store (constructor [0; 1]) 1 "a" (JNum 2) = [] ∧
  onRemove (P:=unit) collision_store (constructor [0; 1]) 1 "a" (JNum 2) = [] ∧
  onUpdate collision_store (constructor [0; 1]) 1 "a" (JNum 2) tt = [].
Proof.
  apply (occluded_source_is_silent collision_store (constructor [0; 1]) 1 "a"
           (JNum 2) tt 1 0 0 (JNum 1)).
  - reflexivity.
  - intros [|m] Hm; [done|lia].
  - lia.
  - reflexivity.
  - reflexivity.
Defined.

Lemma sole_holder_single_event_witness :
  onAdd (P:=unit) collision_store (constructor [0; 1]) 1 "b" (JNum 3)
    = [MAdd "b" (JNum 3)] ∧
  onRemove (P:=unit) collision_store (constructor [0; 1]) 1 "b" (JNum 3)
    = [MRemove "b" (JNum 3)].
Proof.
  apply (sole_holder_single_event collision_store (constructor [0; 1]) 1 "b"
           (JNum 3) 1).
  - reflexivity.
  - intros [|m] Hm; [done|lia].
  - intros [|[|n]] s Hn Hs; [by injection Hs as <-|done|done].
Defined.

Lemma visible_update_forwarded_witness :
  onUpdate collision_store (onSubscribeFirst (constructor [0; 1])) 0 "a" (JNum 7) tt
  = [MUpdate "a" (JNum 7) tt].
Proof.
  apply (visible_update_forwarded collision_store
           (onSubscribeFirst (constructor [0; 1])) 0 "a" (JNum 7) tt 0 [0; 1]).
  - reflexivity.
  - reflexivity.
  - intros m Hm. lia.
  - intros n s Hn. lia.
Defined.

Lemma get_agrees_with_iteration_witness :
  ∃ result,
    iterate collision_store (constructor [0; 1]) = Some result ∧
    (get js_truthy collision_store (constructor [0; 1]) "a" = Some (JNum 1)
     ↔ ("a", JNum 1) ∈ result).
Proof.
  apply (get_agrees_with_iteration collision_store js_truthy (constructor [0; 1])
           "a" (JNum 1)).
  intros s held Hs Hheld. cbn in Hs.
  apply elem_of_cons in Hs as [->|Hs].
  - cbn in Hheld. by injection Hheld as <-.
  - apply elem_of_cons in Hs as [->|Hs]; [|by apply elem_of_nil in Hs].
    cbn in Hheld. by injection Hheld as <-.
Defined.

Lemma done_iterator_stays_done_witness :
  ∃ it'', next collision_store (mkIterator [] 0 None ∅) = Some (Done, it'') ∧
          _currentIterator it'' = None ∧
          (Z.of_nat (length (it_sources it'')) ≤ _sourceIndex it'')%Z.
Proof.
  apply (done_iterator_stays_done collision_store (newIterator [])).
  - cbn. lia.
  - reflexivity.
Defined.

End JoinedMapLaws.

(** ** ApplyMap: pass-through and life cycle *)

Module ApplyMapLaws.
Import ApplyMap.

Section laws.
Context {K V P : Type}.
Implicit Types (am : t K V P) (e : MapEvent K V P).

Lemma emitted_events_app (l1 l2 : list (Effect K V P)) :
  emitted_events (l1 ++ l2) = emitted_events l1 ++ emitted_events l2.
Proof.
  induction l1 as [|[] rest IH]; cbn; [done|done|done|done|by rewrite IH].
Qed.

Lemma callback_calls_app (l1 l2 : list (Effect K V P)) :
  callback_calls (l1 ++ l2) = callback_calls l1 ++ callback_calls l2.
Proof.
  induction l1 as [|[] rest IH]; cbn; [done|done|done|by rewrite IH|done].
Qed.

Lemma applyOnce_emits_nothing am :
  emitted_events (applyOnce (P:=P) am) = [] ∧
  callback_calls (applyOnce (P:=P) am)
  = (λ kv, (kv.1, kv.2, None)) <$> entries (_source am).
Proof.
  unfold applyOnce. induction (entries (_source am)) as [|[key value] rest [IH1 IH2]];
    [done|]. cbn. by rewrite IH2.
Qed.

(** An ApplyMap passes every event of its source on unchanged: whatever
    the event and whether or not a callback is set, the handler emits
    exactly that event, as the last thing it does.  The callback is called
    before that: for an add once with the key and the value, for an update
    once with the key, the value and the params, for a reset once per entry
    of the source and without params, for a remove never; without a
    callback it is never called. *)
Theorem handlers_pass_events_through am e :
  ∃ calls,
    handle am e = calls ++ [Emitted e] ∧
    emitted_events calls = [] ∧
    callback_calls calls =
      (if _apply am then
         match e with
         | MReset => (λ kv, (kv.1, kv.2, None)) <$> entries (_source am)
         | MAdd key value => [(key, value, None)]
         | MRemove _ _ => []
         | MUpdate key value params => [(key, value, Some params)]
         end
       else []).
Proof.
  destruct e as [|key value|key value|key value params]; cbn [handle].
  - unfold onReset. destruct (_apply am).
    + exists (applyOnce am). split; [done|]. apply applyOnce_emits_nothing.
    + by exists [].
  - unfold onAdd. destruct (_apply am); eexists; split; done.
  - unfold onRemove. destruct (_apply am); by exists [].
  - unfold onUpdate. destruct (_apply am); eexists; split; done.
Qed.

(** [setApply] with a callback calls it once for every entry of the
    source and emits nothing; with [null] it does nothing, and from then
    on every handler only passes its event on. *)
Theorem setApply_replays am e :
  emitted_events (setApply (P:=P) am true).2 = [] ∧
  callback_calls (setApply (P:=P) am true).2
  = (λ kv, (kv.1, kv.2, None)) <$> entries (_source am) ∧
  hasApply (setApply (P:=P) am true).1 = true ∧
  (setApply (P:=P) am false).2 = [] ∧
  handle (setApply (P:=P) am false).1 e = [Emitted e].
Proof.
  split; [|split; [|split; [done|split; [done|]]]].
  - apply (applyOnce_emits_nothing (mk (this_ am) (_source am) true (_subscription am))).
  - apply (applyOnce_emits_nothing (mk (this_ am) (_source am) true (_subscription am))).
  - by destruct e.
Qed.

(** A first subscription followed by the last unsubscription leaves the
    source with the handlers it had and the ApplyMap without a
    subscription; unsubscribing once more throws, since the closure is
    gone. *)
Theorem subscribe_unsubscribe_cycle (this : BaseObservable.handler)
    (source : Source K V P) (apply : bool) :
  this ∉ BaseObservable._handlers (observable source) →
  ∃ am,
    onUnsubscribeLast (P:=P)
      (onSubscribeFirst (P:=P) (constructor this source apply)).1
    = Some (am, [SourceUnsubscribed this]) ∧
    BaseObservable._handlers (observable (_source am))
    = BaseObservable._handlers (observable source) ∧
    entries (_source am) = entries source ∧
    _subscription am = None ∧
    onUnsubscribeLast (P:=P) am = None.
Proof.
  intros Hnew. unfold onSubscribeFirst, onUnsubscribeLast, constructor.
  cbn [this_ _source _apply _subscription observable entries fst snd].
  destruct (BaseObservable.subscribe this (observable source)) as [obs unsub] eqn:Hsub.
  cbn [fst _subscription this_ _source _apply observable entries].
  eexists. split; [done|]. cbn [_source observable entries _subscription].
  split; [|done].
  pose proof (BaseObservableLaws.handlers_after_subscribe this (observable source)) as Hadd.
  rewrite Hsub in Hadd. cbn [fst] in Hadd.
  rewrite BaseObservableLaws.handlers_after_unsubscribe, Hadd. set_solver.
Qed.
End laws.

Lemma subscribe_unsubscribe_cycle_witness :
  ∃ am : t string nat unit,
    onUnsubscribeLast (P:=unit)
      (onSubscribeFirst (P:=unit)
         (constructor 5 noisy_source true)).1
    = Some (am, [SourceUnsubscribed 5]) ∧
    BaseObservable._handlers (observable (_source am))
    = BaseObservable._handlers
        (observable noisy_source) ∧
    entries (_source am) = entries noisy_source ∧
    _subscription am = None ∧
    onUnsubscribeLast (P:=unit) am = None.
Proof.
  apply (subscribe_unsubscribe_cycle 5 noisy_source true).
  cbn. set_solver.
Defined.

End ApplyMapLaws.

(** ** MappedMap: the cache of mapped values *)

Module MappedMapLaws.
Import MappedMap.

Section laws.
Context {K FV TV P : Type} `{Countable K}.
Variable mapper : FV → TV.
Implicit Types (mm : t (K:=K) (FV:=FV) (TV:=TV)) (key : K) (value : FV).

Lemma lookup_cache_build (l : list (K * FV)) (m : gmap K TV) key :
  NoDup l.*1 →
  (∀ value, (key, value) ∈ l →
     foldl (λ m kv, <[kv.1 := mapper kv.2]> m) m l !! key = Some (mapper value)) ∧
  (key ∉ l.*1 →
     foldl (λ m kv, <[kv.1 := mapper kv.2]> m) m l !! key = m !! key).
Proof.
  revert m. induction l as [|[k v] rest IH]; intros m Hnodup.
  { split; [by intros value ?%elem_of_nil|done]. }
  cbn in Hnodup. apply NoDup_cons in Hnodup as [Hk Hnodup].
  destruct (IH (<[k := mapper v]> m) Hnodup) as [IHin IHout].
  cbn [foldl fst snd]. split.
  - intros value Hin. apply elem_of_cons in Hin as [[= -> ->]|Hin].
    + rewrite IHout by done. apply lookup_insert_eq.
    + by apply IHin.
  - intros Hout. cbn in Hout. apply not_elem_of_cons in Hout as [Hne Hout].
    rewrite IHout by done. by apply lookup_insert_ne.
Qed.

Lemma dom_cache_build (l : list (K * FV)) (m : gmap K TV) :
  dom (foldl (λ m kv, <[kv.1 := mapper kv.2]> m) m l) = dom m ∪ list_to_set l.*1.
Proof.
  revert m. induction l as [|[k v] rest IH]; intros m; cbn [foldl fst snd].
  { cbn. set_solver. }
  rewrite IH, dom_insert_L. cbn. set_solver.
Qed.

(** The first subscription over a source whose keys are distinct, with
    the cache still empty, caches the mapped value of every entry and
    nothing else: [get] is the mapped value for a key of the source and
    undefined for any other key, and [size] is the number of entries. *)
Theorem onSubscribeFirst_builds_cache (source : list (K * FV)) (sub : bool) :
  NoDup source.*1 →
  let mm := onSubscribeFirst mapper (mk source ∅ sub) in
  (∀ key value, (key, value) ∈ source → get mm key = Some (mapper value)) ∧
  (∀ key, key ∉ source.*1 → get mm key = None) ∧
  get_size mm = length source.
Proof.
  intros Hnodup mm. subst mm. unfold onSubscribeFirst, get, get_size.
  cbn [_source _mappedValues]. split; [|split].
  - intros key value. by apply lookup_cache_build.
  - intros key Hout.
    destruct (lookup_cache_build source ∅ key Hnodup) as [_ Hmiss].
    by rewrite Hmiss.
  - rewrite <- size_dom, dom_cache_build, dom_empty_L, (left_id_L ∅ (∪)).
    rewrite size_list_to_set by done. by rewrite length_fmap.
Qed.

(** An add for a key the cache does not hold, followed by a remove of
    that key, leaves the MappedMap as it was; the add and the remove both
    carry the mapped value, which [get] returns in between. *)
Theorem add_then_remove_restores mm key value :
  _mappedValues mm !! key = None →
  (onAdd (P:=P) mapper mm key value).2 = [MAdd key (mapper value)] ∧
  get (onAdd (P:=P) mapper mm key value).1 key = Some (mapper value) ∧
  onRemove (P:=P) (onAdd (P:=P) mapper mm key value).1 key
  = (mm, [MRemove key (mapper value)]).
Proof.
  intros Hnew. unfold onAdd, onRemove, get. cbn [fst snd _mappedValues _source _subscription].
  rewrite lookup_insert_eq. split; [done|]. split; [done|].
  rewrite delete_insert_id by done. by destruct mm.
Qed.

(** For a key the cache does not hold, a remove, an update and a
    spontaneous update emit nothing and change nothing. *)
Theorem missing_key_is_ignored (updater : option (TV → P → FV → TV))
    (truthy : TV → bool) mm key value (params : P) :
  _mappedValues mm !! key = None →
  onRemove (P:=P) mm key = (mm, []) ∧
  onUpdate updater mm key value params = (mm, []) ∧
  _emitSpontaneousUpdate truthy mm key params = [].
Proof.
  intros Hnew. unfold onRemove, onUpdate, _emitSpontaneousUpdate. by rewrite Hnew.
Qed.

(** An update for a cached key without an updater leaves the MappedMap as
    it was and re-emits the cached mapped value with the params of the
    source: the new source value is not mapped again.  With an updater
    the cache and the event hold what the updater made of the cached
    value. *)
Theorem update_keeps_cached_value mm key value (params : P) (mapped : TV) :
  _mappedValues mm !! key = Some mapped →
  onUpdate None mm key value params = (mm, [MUpdate key mapped params]) ∧
  ∀ updater : TV → P → FV → TV,
    (onUpdate (Some updater) mm key value params).2
    = [MUpdate key (updater mapped params value) params] ∧
    get (onUpdate (Some updater) mm key value params).1 key
    = Some (updater mapped params value).
Proof.
  intros Hkey. unfold onUpdate, get. rewrite Hkey. split.
  - rewrite insert_id by done. by destruct mm.
  - intros updater. cbn. by rewrite lookup_insert_eq.
Qed.

(** *** The keys of the cache follow the source *)

Lemma source_change_keeps_keys (updater : option (TV → P → FV → TV))
    (c : SourceChange (K:=K) (FV:=FV) (P:=P)) (entries : gmap K FV) mm :
  dom (_mappedValues mm) = dom entries →
  let st := (source_change mapper updater c (entries, mm)).1 in
  dom (_mappedValues st.2) = dom st.1.
Proof.
  intros Hdom. destruct c as [key value|key|key value params|]; cbn [source_change].
  - destruct (entries !! key) eqn:Hkey; [done|].
    cbn. rewrite !dom_insert_L. by rewrite Hdom.
  - destruct (entries !! key) as [v|] eqn:Hkey; [|done].
    unfold onRemove, with_source. cbn [_mappedValues _source _subscription].
    destruct (_mappedValues mm !! key) as [mapped|] eqn:Hcached.
    + cbn. rewrite !dom_delete_L. by rewrite Hdom.
    + exfalso. apply not_elem_of_dom in Hcached. rewrite Hdom in Hcached.
      apply Hcached, elem_of_dom. eauto.
  - destruct (entries !! key) as [v|] eqn:Hkey; [|done].
    unfold onUpdate, with_source. cbn [_mappedValues _source _subscription].
    destruct (_mappedValues mm !! key) as [mapped|] eqn:Hcached.
    + cbn. rewrite !dom_insert_L. by rewrite Hdom.
    + exfalso. apply not_elem_of_dom in Hcached. rewrite Hdom in Hcached.
      apply Hcached, elem_of_dom. eauto.
  - cbn. by rewrite !dom_empty_L.
Qed.

Lemma source_changes_keep_keys (updater : option (TV → P → FV → TV))
    (cs : list (SourceChange (K:=K) (FV:=FV) (P:=P))) (entries : gmap K FV) mm :
  dom (_mappedValues mm) = dom entries →
  let st := (source_changes mapper updater cs (entries, mm)).1 in
  dom (_mappedValues st.2) = dom st.1.
Proof.
  revert entries mm. induction cs as [|c cs IH]; intros entries mm Hdom; [done|].
  cbn [source_changes].
  pose proof (source_change_keeps_keys updater c entries mm Hdom) as Hstep.
  destruct (source_change mapper updater c (entries, mm)) as [[entries1 mm1] events].
  cbn [fst snd] in Hstep. specialize (IH entries1 mm1 Hstep).
  destruct (source_changes mapper updater cs (entries1, mm1)) as [st later].
  done.
Qed.

(** After the first subscription and any sequence of changes of the
    source (adds, removes, updates, resets), with or without an updater,
    the MappedMap holds a mapped value for exactly the keys of the source,
    and its [size] is the number of entries of the source. *)
Theorem cache_keys_follow_source (updater : option (TV → P → FV → TV))
    (entries : gmap K FV) (cs : list (SourceChange (K:=K) (FV:=FV) (P:=P))) :
  let st := (source_changes mapper updater cs
               (entries, onSubscribeFirst mapper (mk (map_to_list entries) ∅ false))).1 in
  (∀ key, is_Some (get st.2 key) ↔ is_Some (st.1 !! key)) ∧
  get_size st.2 = size st.1.
Proof.
  assert (Hdom : dom (_mappedValues
                        (onSubscribeFirst mapper (mk (map_to_list entries) ∅ false)))
                 = dom entries).
  { unfold onSubscribeFirst. cbn [_mappedValues _source].
    rewrite dom_cache_build, dom_empty_L, (left_id_L ∅ (∪)).
    apply set_eq. intros key. rewrite elem_of_list_to_set, elem_of_dom.
    rewrite list_elem_of_fmap. split.
    - intros ([k v] & -> & Hin). apply elem_of_map_to_list in Hin. eauto.
    - intros [v Hv]. exists (key, v). split; [done|]. by apply elem_of_map_to_list. }
  pose proof (source_changes_keep_keys updater cs _ _ Hdom) as Hkeys.
  cbv zeta in *. split.
  - intros key. unfold get. by rewrite <- !elem_of_dom, Hkeys.
  - unfold get_size. by rewrite <- !size_dom, Hkeys.
Qed.
End laws.

Lemma onSubscribeFirst_builds_cache_witness :
  let mm := onSubscribeFirst (K:=string) S (mk [("a", 1); ("b", 2)] ∅ false) in
  (∀ key value, (key, value) ∈ [("a", 1); ("b", 2)] → get mm key = Some (S value)) ∧
  (∀ key, key ∉ [("a", 1); ("b", 2)].*1 → get mm key = None) ∧
  get_size mm = length [("a", 1); ("b", 2)].
Proof.
  apply (onSubscribeFirst_builds_cache (K:=string) S [("a", 1); ("b", 2)] false).
  cbn. repeat constructor; set_solver.
Defined.

Lemma add_then_remove_restores_witness :
  let mm := mk (K:=string) (FV:=nat) (TV:=nat) [] ∅ true in
  (onAdd (P:=unit) S mm "a" 1).2 = [MAdd "a" 2] ∧
  get (onAdd (P:=unit) S mm "a" 1).1 "a" = Some 2 ∧
  onRemove (P:=unit) (onAdd (P:=unit) S mm "a" 1).1 "a" = (mm, [MRemove "a" 2]).
Proof.
  apply (add_then_remove_restores (P:=unit) S (mk [] ∅ true) "a" 1).
  apply lookup_empty.
Defined.

Lemma missing_key_is_ignored_witness :
  let mm := mk (K:=string) (FV:=nat) (TV:=nat) [] ∅ true in
  onRemove (P:=unit) mm "a" = (mm, []) ∧
  onUpdate None mm "a" 1 tt = (mm, []) ∧
  _emitSpontaneousUpdate (λ n, negb (Nat.eqb n 0)) mm "a" tt = [].
Proof.
  apply (missing_key_is_ignored None (λ n, negb (Nat.eqb n 0)) (mk [] ∅ true) "a" 1 tt).
  apply lookup_empty.
Defined.

Lemma update_keeps_cached_value_witness :
  let mm := mk (K:=string) (FV:=nat) (TV:=nat) [("a", 1)] {["a" := 2]} true in
  onUpdate None mm "a" 5 tt = (mm, [MUpdate "a" 2 tt]) ∧
  ∀ updater : nat → unit → nat → nat,
    (onUpdate (Some updater) mm "a" 5 tt).2 = [MUpdate "a" (updater 2 tt 5) tt] ∧
    get (onUpdate (Some updater) mm "a" 5 tt).1 "a" = Some (updater 2 tt 5).
Proof.
  apply (update_keeps_cached_value (mk [("a", 1)] {["a" := 2]} true) "a" 5 tt 2).
  apply lookup_singleton_eq.
Defined.

End MappedMapLaws.

(** ** FilteredList: the mask under any filter *)

Module FilteredListLaws.
Import FilteredList.

Section laws.
Context {V P : Type}.
Variable f : Filter (V:=V).
Implicit Types (fl : t V) (included : list bool) (rest items : list V).

Lemma length_mask_from items (i : nat) : length (mask_from f items i) = length items.
Proof. revert i. induction items as [|v rest IH]; intros i; cbn; [done|]. by rewrite IH. Qed.

Lemma lookup_mask_from items (i k : nat) :
  mask_from f items i !! k = (λ v, f v (i + k)) <$> items !! k.
Proof.
  revert i k. induction items as [|v rest IH]; intros i k; [done|].
  destruct k as [|k]; cbn.
  - by rewrite Nat.add_0_r.
  - rewrite IH. by replace (S i + k) with (i + S k) by lia.
Qed.

Lemma mask_from_app (l1 l2 : list V) (i : nat) :
  mask_from f (l1 ++ l2) i = mask_from f l1 i ++ mask_from f l2 (i + length l1).
Proof.
  revert i. induction l1 as [|v rest IH]; intros i; cbn.
  - by rewrite Nat.add_0_r.
  - rewrite IH. by replace (S i + length rest) with (i + S (length rest)) by lia.
Qed.

Lemma satisfying_from_app (l1 l2 : list V) (i : nat) :
  satisfying_from f (l1 ++ l2) i
  = satisfying_from f l1 i ++ satisfying_from f l2 (i + length l1).
Proof.
  revert i. induction l1 as [|v rest IH]; intros i; cbn.
  - by rewrite Nat.add_0_r.
  - rewrite IH. replace (S i + length rest) with (i + S (length rest)) by lia.
    by destruct (f v i).
Qed.

(** *** [_reapplyFilter] recomputes the whole mask *)

Lemma js_write_at_most_end included (i : nat) (x : bool) :
  i ≤ length included →
  js_write included i x = take i included ++ x :: drop (S i) included.
Proof.
  intros Hi. unfold js_write. case_decide as Hlt.
  - by apply insert_take_drop.
  - assert (i = length included) as -> by lia.
    rewrite Nat.sub_diag, take_ge, drop_ge by lia. done.
Qed.

Lemma reapply_loop_mask (silent aliased : bool) rest (i t : nat) included :
  i ≤ length included → length included ≤ i + length rest →
  (reapply_loop (P:=P) f silent aliased rest i t included).1
  = take i included ++ mask_from f rest i.
Proof.
  revert i t included.
  induction rest as [|value rest IH]; intros i t included Hlow Hhigh.
  { cbn in *. rewrite take_ge by lia. by rewrite app_nil_r. }
  cbn [reapply_loop mask_from]. cbn in Hhigh.
  set (included' := js_write included i (f value i)).
  set (t' := if f value i then S t else t).
  assert (Hwrite : included' = take i included ++ f value i :: drop (S i) included)
    by by apply js_write_at_most_end.
  assert (Hlen : length included' = S i + length (drop (S i) included)).
  { rewrite Hwrite, length_app, length_take. cbn. lia. }
  specialize (IH (S i) t' included').
  destruct (reapply_loop f silent aliased rest (S i) t' included') as [result later].
  cbn [fst] in *. rewrite IH.
  - rewrite Hwrite.
    rewrite (take_S_r _ i (f value i)).
    + rewrite take_app_length' by (rewrite length_take; lia).
      by rewrite <- app_assoc.
    + apply list_lookup_middle. rewrite length_take. lia.
  - lia.
  - rewrite Hlen, length_drop. lia.
Qed.

Lemma reapplyFilter_agrees (silent : bool) items (mask : option (list bool))
    (sub : bool) :
  mask_fits (mk items (Some f) mask sub) →
  (_reapplyFilter (P:=P) silent (mk items (Some f) mask sub)).1
  = mk items (Some f) (Some (mask_of f items)) sub.
Proof.
  intros Hfits. unfold _reapplyFilter, mask_fits in *.
  cbn [_filter _included _source _subscription] in *.
  destruct mask as [included|].
  - pose proof (reapply_loop_mask silent true items 0 0 included ltac:(lia) Hfits)
      as Hloop.
    change (bool_decide (is_Some (Some included))) with true.
    destruct (reapply_loop f silent true items 0 0 included) as [result events].
    cbn [fst] in *. by rewrite Hloop.
  - pose proof (reapply_loop_mask silent false items 0 0
                  (replicate (length items) false) ltac:(lia)) as Hloop.
    rewrite length_replicate in Hloop. specialize (Hloop ltac:(lia)).
    change (bool_decide (is_Some None)) with false.
    destruct (reapply_loop f silent false items 0 0 (replicate (length items) false))
      as [result events].
    cbn [fst] in *. by rewrite Hloop.
Qed.

(** *** What a mask that agrees with the source gives *)

Lemma forEach_count_mask rest (count i : nat) :
  forEach_count (mask_from f rest i) count
  = count + length (satisfying_from f rest i).
Proof.
  revert count i. induction rest as [|value rest IH]; intros count i; cbn; [lia|].
  destruct (f value i); cbn; rewrite IH; lia.
Qed.

Lemma drain_mask rest (fuel : nat) (seen : list bool) :
  length rest < fuel →
  drain fuel (mkIterator (Some (seen ++ mask_from f rest (length seen)))
                (length seen) rest)
  = Some (Normal (satisfying_from f rest (length seen))).
Proof.
  revert fuel seen. induction rest as [|value rest IH]; intros fuel seen Hfuel.
  { destruct fuel; [cbn in Hfuel; lia|done]. }
  destruct fuel as [|fuel]; [lia|]. cbn in Hfuel.
  cbn [mask_from satisfying_from].
  assert (Hread : js_read (seen ++ f value (length seen)
                             :: mask_from f rest (S (length seen))) (length seen)
                  = f value (length seen)).
  { unfold js_read. by rewrite list_lookup_middle. }
  assert (Hshift : seen ++ f value (length seen) :: mask_from f rest (S (length seen))
                   = (seen ++ [f value (length seen)])
                     ++ mask_from f rest (length (seen ++ [f value (length seen)]))).
  { rewrite <- app_assoc, length_app. cbn.
    by replace (length seen + 1) with (S (length seen)) by lia. }
  assert (Hlen : S (length seen) = length (seen ++ [f value (length seen)])).
  { rewrite length_app. cbn. lia. }
  destruct (f value (length seen)) eqn:Hpass.
  - cbn [drain next fi_included _index _sourceIterator next_loop].
    rewrite Hread, Hshift, Hlen.
    by rewrite IH by lia.
  - specialize (IH (S fuel) (seen ++ [false]) ltac:(lia)).
    rewrite <- Hshift, <- Hlen in IH. rewrite <- IH.
    cbn [drain next fi_included _index _sourceIterator next_loop].
    by rewrite Hread.
Qed.

Lemma agrees_length_and_iteration fl :
  agrees f fl →
  get_length fl = Normal (length (satisfying f (_source fl))) ∧
  iterate fl = Some (Normal (satisfying f (_source fl))).
Proof.
  intros [Hfilter Hmask].
  unfold get_length, iterate, newIterator, satisfying. rewrite Hmask. split.
  - unfold mask_of. by rewrite (forEach_count_mask _ 0 0).
  - apply (drain_mask (_source fl) _ []). lia.
Qed.

(** Right after the first subscription, for every filter, also one that
    looks at the index: [length] is the number of source elements that pass
    the filter at their index, and the iteration yields exactly these, in
    source order. *)
Theorem subscribed_length_and_iteration items :
  let fl := onSubscribeFirst (P:=P) (constructor items (Some f)) in
  _source fl = items ∧
  get_length fl = Normal (length (satisfying f items)) ∧
  iterate fl = Some (Normal (satisfying f items)).
Proof.
  cbv zeta. unfold onSubscribeFirst, constructor.
  cbn [_source _filter _included _subscription].
  rewrite reapplyFilter_agrees by done.
  split; [done|]. by apply agrees_length_and_iteration.
Qed.

(** *** Changes that keep the mask in step *)

Lemma mask_from_insert items (idx : nat) value (i : nat) :
  idx < length items →
  <[idx := f value (i + idx)]> (mask_from f items i)
  = mask_from f (<[idx := value]> items) i.
Proof.
  revert idx i. induction items as [|v rest IH]; intros idx i Hidx; [cbn in Hidx; lia|].
  destruct idx as [|idx]; cbn.
  - by rewrite Nat.add_0_r.
  - cbn in Hidx. rewrite <- IH by lia.
    by replace (S i + idx) with (i + S idx) by lia.
Qed.

(** Under any filter: when the mask agrees with the source, it still does
    after a remove, an update, a move, an insert of an element that passes
    or that goes to the end, and a reset to a source that is not shorter;
    no handler throws, and [length] and the iteration are those of the
    passing elements of the new source. *)
Theorem settling_change_keeps_mask (c : SourceChange V P) fl :
  agrees f fl → settles f fl c →
  ∃ fl' events,
    source_change c fl = Normal (fl', events) ∧
    agrees f fl' ∧
    get_length fl' = Normal (length (satisfying f (_source fl'))) ∧
    iterate fl' = Some (Normal (satisfying f (_source fl'))).
Proof.
  intros Hagrees Hsettles.
  assert (Hgoal : ∃ fl' events,
            source_change c fl = Normal (fl', events) ∧ agrees f fl').
  2:{ destruct Hgoal as (fl' & events & Hrun & Hfl').
      exists fl', events. split; [done|]. split; [done|].
      by apply agrees_length_and_iteration. }
  pose proof Hagrees as [Hfilter Hmask].
  destruct fl as [items filter included sub].
  cbn in Hfilter, Hmask, Hsettles. subst filter included.
  assert (Hsame : ∃ fl' events,
            Normal (mk items (Some f) (Some (mask_of f items)) sub,
                    @nil (Event V P)) = Normal (fl', events) ∧ agrees f fl')
    by (do 2 eexists; split; [reflexivity|exact Hagrees]).
  assert (Hre : ∀ items' mask',
            length mask' ≤ length items' →
            ∀ before : list (Event V P),
            ∃ fl' events,
              (let '(fl1, later) :=
                 _reapplyFilter false (mk items' (Some f) (Some mask') sub) in
               Normal (fl1, before ++ later)) = Normal (fl', events)
              ∧ agrees f fl').
  { intros items' mask' Hfits before.
    pose proof (reapplyFilter_agrees false items' (Some mask') sub Hfits) as Heq.
    destruct (_reapplyFilter false (mk items' (Some f) (Some mask') sub))
      as [fl1 later].
    cbn [fst] in Heq. subst fl1. do 2 eexists. split; [done|]. by split. }
  destruct c as [idx value|idx|idx value params|fromIdx toIdx|items'].
  - (* Insert *)
    cbn [source_change _source]. case_decide as Hidx; [|exact Hsame].
    unfold onAdd, with_source.
    cbn [_filter _included _source _subscription fmap option_fmap option_map].
    destruct (f value idx) eqn:Hpass; cbn [negb].
    + unfold onAdd_emit.
      destruct (Hre (splice_insert items idx value)
                  (splice_insert (mask_of f items) idx true)
                  ltac:(unfold splice_insert, mask_of;
                        rewrite !length_app; cbn;
                        rewrite !length_take, !length_drop, length_mask_from; lia)
                  [])
        as (fl' & events & Hrun & Hfl').
      destruct (_reapplyFilter _ _) as [fl1 later].
      injection Hrun as <- <-. do 2 eexists. split; [done|]. done.
    + destruct Hsettles as [Habs|Hend]; [congruence|]. cbn in Hend. subst idx.
      do 2 eexists. split; [done|]. split; [done|]. cbn [_included _source].
      unfold splice_insert, mask_of.
      rewrite !take_ge, !drop_ge by (rewrite ?length_mask_from; lia).
      rewrite mask_from_app. cbn. by rewrite Hpass.
  - (* Remove *)
    cbn [source_change _source].
    destruct (items !! idx) as [value|] eqn:Hidx; [|exact Hsame].
    apply lookup_lt_Some in Hidx.
    unfold onRemove, with_source.
    cbn [_filter _included _source _subscription fmap option_fmap option_map].
    apply Hre.
    unfold splice_delete, mask_of.
    rewrite !length_app, !length_take, !length_drop, length_mask_from. lia.
  - (* Update *)
    cbn [source_change _source]. case_decide as Hidx; [|exact Hsame].
    unfold onUpdate, with_source. cbn [_filter _included _source _subscription].
    do 2 eexists. split; [done|]. split; [done|]. cbn [_included _source].
    unfold js_write, mask_of.
    rewrite decide_True by (by rewrite length_mask_from).
    by rewrite <- (mask_from_insert items idx value 0).
  - (* Move *)
    cbn [source_change _source].
    destruct (items !! fromIdx) as [value|] eqn:Hfrom; [|exact Hsame].
    apply lookup_lt_Some in Hfrom.
    case_decide as Hto; [|exact Hsame].
    unfold onMove, with_source. cbn [_filter _included _source _subscription].
    apply Hre.
    unfold splice_insert, splice_delete, mask_of.
    rewrite !length_app. cbn. rewrite !length_take, !length_drop, !length_app.
    rewrite !length_take, !length_drop, length_mask_from. lia.
  - (* Reset *)
    cbn [source_change]. unfold onReset, with_source.
    cbn [_filter _included _source _subscription].
    change (mask_from f items 0) with (mask_of f items).
    assert (Hfits : mask_fits (mk items' (Some f) (Some (mask_of f items)) sub)).
    { unfold mask_fits, mask_of. cbn [_included _source].
      rewrite length_mask_from. exact Hsettles. }
    pose proof (reapplyFilter_agrees false _ _ _ Hfits) as Heq.
    destruct (_reapplyFilter false (mk items' (Some f) (Some (mask_of f items)) sub))
      as [fl1 later].
    cbn [fst] in Heq. subst fl1. do 2 eexists. split; [reflexivity|]. by split.
Qed.
End laws.

End FilteredListLaws.

(** ** FilteredList: translated indices, filter changes, life cycle *)

Module FilteredListPositions.
Import FilteredList FilteredListLaws.

(** *** Translated indices *)

Section positions.
Context {V P : Type}.
Variable f : Filter (V:=V).
Implicit Types (fl : t V) (items : list V).

Lemma length_satisfying_from items (i : nat) :
  length (satisfying_from f items i) ≤ length items.
Proof.
  revert i. induction items as [|v rest IH]; intros i; cbn; [done|].
  specialize (IH (S i)). destruct (f v i); cbn; lia.
Qed.

Lemma translate_loop_mask items (steps i t : nat) :
  i + steps ≤ length items →
  translate_loop (mask_of f items) steps i t
  = t + length (satisfying_from f (take steps (drop i items)) i).
Proof.
  revert i t. induction steps as [|steps IH]; intros i t Hrange; cbn [translate_loop].
  { rewrite take_0. cbn. lia. }
  destruct (items !! i) as [v|] eqn:Hv.
  2:{ apply lookup_ge_None in Hv. lia. }
  assert (Hread : js_read (mask_of f items) i = f v i).
  { unfold js_read, mask_of. by rewrite lookup_mask_from, Hv. }
  rewrite Hread, IH by lia.
  rewrite (drop_S _ _ _ Hv). cbn [take satisfying_from].
  destruct (f v i); cbn; lia.
Qed.

(** While the mask agrees with the source, the translated index of a
    source position is the number of passing elements before it, which is
    at most the position itself; a passing element is found at its
    translated index in the iteration. *)
Theorem translated_index_is_position fl (idx : nat) (value : V) :
  agrees f fl → _source fl !! idx = Some value →
  _translateIndex fl idx = length (satisfying f (take idx (_source fl))) ∧
  _translateIndex fl idx ≤ idx ∧
  (f value idx = true →
   ∃ result, iterate fl = Some (Normal result) ∧
             result !! _translateIndex fl idx = Some value).
Proof.
  intros Hagrees Hidx. pose proof Hagrees as [Hfilter Hmask].
  assert (Hlt : idx < length (_source fl)) by by eapply lookup_lt_Some.
  assert (Htr : _translateIndex fl idx
                = length (satisfying f (take idx (_source fl)))).
  { unfold _translateIndex, satisfying. rewrite Hmask.
    rewrite translate_loop_mask by lia. by rewrite drop_0. }
  split; [done|]. split.
  { rewrite Htr. unfold satisfying.
    etrans; [apply length_satisfying_from|]. rewrite length_take. lia. }
  intros Hpass. exists (satisfying f (_source fl)).
  split; [by apply FilteredListLaws.agrees_length_and_iteration|].
  rewrite Htr. unfold satisfying.
  rewrite <- (take_drop idx (_source fl)) at 2.
  rewrite FilteredListLaws.satisfying_from_app, length_take.
  rewrite (drop_S _ _ _ Hidx). cbn [satisfying_from].
  replace (0 + idx `min` length (_source fl)) with idx by lia.
  rewrite Hpass. by apply list_lookup_middle.
Qed.

(** *** Changing the filter *)

(** Setting a filter on a subscribed list whose mask, if any, is not
    longer than the source recomputes the mask for the new filter,
    whatever the filter was before: [length] and the iteration are those
    of the elements passing the new filter. *)
Theorem setFilter_recomputes_mask fl :
  _subscription fl = true → mask_fits fl →
  let fl' := (setFilter (P:=P) (Some f) fl).1 in
  _source fl' = _source fl ∧
  agrees f fl' ∧
  get_length fl' = Normal (length (satisfying f (_source fl))) ∧
  iterate fl' = Some (Normal (satisfying f (_source fl))).
Proof.
  intros Hsub Hfits. destruct fl as [items old mask sub]. cbn in Hsub. subst sub.
  cbv zeta. unfold setFilter. cbn [_source _included _subscription].
  rewrite FilteredListLaws.reapplyFilter_agrees by done.
  split; [done|]. split; [done|].
  by apply (FilteredListLaws.agrees_length_and_iteration f
              (mk items (Some f) (Some (mask_of f items)) true)).
Qed.

Lemma unfilter_loop_excluded (included : list bool) (rest : list V) (i : nat) :
  (∀ k v, rest !! k = Some v → js_read included (i + k) = f v (i + k)) →
  length (unfilter_loop (P:=P) false included rest i)
  + length (satisfying_from f rest i) = length rest ∧
  Forall (λ e, ∃ k v, e = LAdd (i + k) v ∧ rest !! k = Some v ∧ f v (i + k) = false)
    (unfilter_loop (P:=P) false included rest i).
Proof.
  revert i. induction rest as [|value rest IH]; intros i Hmask; [done|].
  cbn [unfilter_loop satisfying_from].
  pose proof (Hmask 0 value eq_refl) as Hhead. rewrite Nat.add_0_r in Hhead.
  destruct (IH (S i)) as [IHlen IHall].
  { intros k v Hk. specialize (Hmask (S k) v Hk).
    by replace (i + S k) with (S i + k) in Hmask by lia. }
  assert (Hlater : Forall (λ e, ∃ k v, e = LAdd (i + k) v
                                   ∧ (value :: rest) !! k = Some v
                                   ∧ f v (i + k) = false)
                     (unfilter_loop (P:=P) false included rest (S i))).
  { eapply Forall_impl; [exact IHall|]. intros e (k & v & -> & Hk & Hfail).
    exists (S k), v. replace (i + S k) with (S i + k) by lia. done. }
  rewrite Hhead. destruct (f value i) eqn:Hpass; cbn.
  - split; [lia|done].
  - split; [lia|]. constructor; [|done].
    exists 0, value. rewrite Nat.add_0_r. done.
Qed.

Lemma unfilter_loop_adds (included : list bool) (rest : list V) (i : nat) :
  (∀ k v, rest !! k = Some v → js_read included (i + k) = f v (i + k)) →
  unfilter_loop (P:=P) false included rest i
  = omap (λ iv, if f iv.2 iv.1 then None else Some (LAdd iv.1 iv.2))
      (imap (λ k v, (i + k, v)) rest).
Proof.
  revert i. induction rest as [|value rest IH]; intros i Hmask; [done|].
  cbn [unfilter_loop]. rewrite imap_cons. cbn [omap list_omap fst snd].
  pose proof (Hmask 0 value eq_refl) as Hhead. rewrite Nat.add_0_r in Hhead |- *.
  rewrite Hhead, IH.
  2:{ intros k v Hk. specialize (Hmask (S k) v Hk).
      by replace (i + S k) with (S i + k) in Hmask by lia. }
  assert (Hshift : imap (λ k v, (S i + k, v)) rest
                   = imap ((λ k v, (i + k, v)) ∘ S) rest).
  { apply imap_ext. intros k v _. cbn. f_equal. lia. }
  rewrite Hshift. by destruct (f value i).
Qed.

(** Removing the filter from a subscribed list whose mask agrees with the
    source drops the mask and emits exactly this list of events: going
    through the source in order, one add for every element the filter
    excluded, with its source index and its value, and nothing for an
    element the filter let through.  So there are as many events as
    elements that were excluded. *)
Theorem removing_filter_adds_excluded fl :
  _subscription fl = true → agrees f fl →
  (setFilter (P:=P) None fl).1 = mk (_source fl) None None true ∧
  (setFilter (P:=P) None fl).2
  = omap (λ iv, if f iv.2 iv.1 then None else Some (LAdd iv.1 iv.2))
      (imap pair (_source fl)) ∧
  length (setFilter (P:=P) None fl).2 + length (satisfying f (_source fl))
  = length (_source fl).
Proof.
  intros Hsub [Hfilter Hmask]. destruct fl as [items old mask sub].
  cbn in Hsub, Hfilter, Hmask. subst sub old mask.
  unfold setFilter, _reapplyFilter. cbn [_source _filter _included _subscription fst snd].
  assert (Hread : ∀ k v, items !! k = Some v →
                         js_read (mask_of f items) (0 + k) = f v (0 + k)).
  { intros k v Hk. change (0 + k) with k.
    unfold js_read, mask_of. by rewrite lookup_mask_from, Hk. }
  destruct (unfilter_loop_excluded (mask_of f items) items 0 Hread) as [Hlen _].
  split; [done|]. split; [|done].
  exact (unfilter_loop_adds (mask_of f items) items 0 Hread).
Qed.
End positions.

(** *** Subscribing and unsubscribing *)

(** The last unsubscription undoes the first subscription: the list is
    as constructed again, without mask and without subscription, whatever
    the filter. *)
Theorem subscribe_unsubscribe_round_trip {V P : Type} (items : list V)
    (filter : option (Filter (V:=V))) :
  onUnsubscribeLast (onSubscribeFirst (P:=P) (constructor items filter))
  = constructor items filter.
Proof.
  unfold onSubscribeFirst, constructor. cbn [_source _filter _included _subscription].
  destruct filter as [f|].
  - by rewrite FilteredListLaws.reapplyFilter_agrees.
  - done.
Qed.

Lemma settling_change_keeps_mask_witness :
  ∃ fl' events,
    source_change (P:=unit) (Remove 0)
      (onSubscribeFirst (P:=unit) (constructor [10; 20] (Some all_but_first)))
    = Normal (fl', events) ∧
    agrees all_but_first fl' ∧
    get_length fl' = Normal (length (satisfying all_but_first (_source fl'))) ∧
    iterate fl' = Some (Normal (satisfying all_but_first (_source fl'))).
Proof.
  apply (FilteredListLaws.settling_change_keeps_mask all_but_first (Remove 0)).
  - split; reflexivity.
  - exact I.
Defined.

Lemma translated_index_is_position_witness :
  let fl := onSubscribeFirst (P:=unit) (constructor [1; 2; 4] (Some even_values)) in
  _translateIndex fl 2 = length (satisfying even_values (take 2 (_source fl))) ∧
  _translateIndex fl 2 ≤ 2 ∧
  (even_values 4 2 = true →
   ∃ result, iterate fl = Some (Normal result) ∧
             result !! _translateIndex fl 2 = Some 4).
Proof.
  apply (translated_index_is_position even_values
           (onSubscribeFirst (P:=unit) (constructor [1; 2; 4] (Some even_values))) 2 4).
  - split; reflexivity.
  - reflexivity.
Defined.

Lemma setFilter_recomputes_mask_witness :
  let fl := onSubscribeFirst (P:=unit) (constructor [1; 2; 4] (Some even_values)) in
  let fl' := (setFilter (P:=unit) (Some all_but_first) fl).1 in
  _source fl' = _source fl ∧
  agrees all_but_first fl' ∧
  get_length fl' = Normal (length (satisfying all_but_first (_source fl))) ∧
  iterate fl' = Some (Normal (satisfying all_but_first (_source fl))).
Proof.
  apply (setFilter_recomputes_mask (P:=unit) all_but_first
           (onSubscribeFirst (P:=unit) (constructor [1; 2; 4] (Some even_values)))).
  - reflexivity.
  - vm_compute. lia.
Defined.

Lemma removing_filter_adds_excluded_witness :
  let fl := onSubscribeFirst (P:=unit) (constructor [1; 3; 2] (Some even_values)) in
  (setFilter (P:=unit) None fl).1 = mk (_source fl) None None true ∧
  (setFilter (P:=unit) None fl).2
  = omap (λ iv, if even_values iv.2 iv.1 then None else Some (LAdd iv.1 iv.2))
      (imap pair (_source fl)) ∧
  length (setFilter (P:=unit) None fl).2 + length (satisfying even_values (_source fl))
  = length (_source fl).
Proof.
  apply (removing_filter_adds_excluded (P:=unit) even_values
           (onSubscribeFirst (P:=unit) (constructor [1; 3; 2] (Some even_values)))).
  - reflexivity.
  - split; reflexivity.
Defined.

Lemma value_filter_length_and_iteration_witness :
  ∃ fl' events,
    source_changes (P:=unit) [Insert 0 3; Remove 1; Update 0 8 None; Move 0 1]
      (onSubscribeFirst (P:=unit) (constructor [1; 2] (Some (on_value Nat.even))))
    = Normal (fl', events) ∧
    get_length fl' = Normal (length (satisfying (on_value Nat.even) (_source fl'))) ∧
    iterate fl' = Some (Normal (satisfying (on_value Nat.even) (_source fl'))).
Proof.
  apply (FilteredListFacts.value_filter_length_and_iteration Nat.even [1; 2]).
  repeat constructor.
Defined.

End FilteredListPositions.
